(** * Eviction caches of kuzminal/cache_strategies

    A shallow embedding of the two Go caches of the repository,

    - [pkg/cache/lru/lru_cache.go] (recency cache, module [LRU]);
    - [pkg/cache/lfu/lfu_cache.go] (frequency cache, module [LFU]);

    and the properties of their specification.

    Representation.  Go's [container/list] is a doubly linked list of
    heap-allocated [list.Element]s; both caches keep maps from keys to
    [*list.Element].  A list is modelled by the sequence of its elements from
    front to back, and an element carries the identity the allocator gave it
    (a natural number taken from the counter [fresh] of the cache), so that
    [Remove] and [MoveToFront], which act on the element they are handed and
    only when it belongs to the list, act here on the element with that
    identity.  Go's [int] is 64 bits wide; the only arithmetic either cache
    does is [oldFreq + 1], which is written with its wrap-around.  A Go map
    finds its keys by [==], under which a NaN is not equal to itself; the
    maps of the caches are modelled with the entries that no key finds any
    more (section Go maps). *)

From stdpp Require Import gmap strings list fin_maps sorting.
From Stdlib Require Import ZArith Lia.

Local Open Scope Z_scope.

(** ** Go values *)

(** The dynamic values an [interface{}] holds as a key or as a value of the
    caches: the nil interface, strings, ints and bools, which is what the
    repository stores, and [NaN], a float64 that is not a number.  [NaN]
    stands for every value of a comparable type that is not equal to itself
    (a NaN, or an array or struct that holds one): both caches accept any
    [interface{}] as a key, and such a key takes the map accesses down
    branches that no other key takes.  The other floats add nothing to what
    the caches do: the map finds them by [==] as it finds an int.  A key of
    a type that is not comparable (a slice, a map, a function) makes the map
    access itself panic and is no value of [any]. *)
Inductive any : Type :=
| Nil
| Str (s : string)
| Int (n : Z)
| Boolean (b : bool)
| NaN.

#[global] Instance any_eq_dec : EqDecision any.
Proof. solve_decision. Defined.

Definition any_encode (a : any) : unit + (string + (Z + (bool + unit))) :=
  match a with
  | Nil => inl ()
  | Str s => inr (inl s)
  | Int n => inr (inr (inl n))
  | Boolean b => inr (inr (inr (inl b)))
  | NaN => inr (inr (inr (inr ())))
  end.

Definition any_decode (x : unit + (string + (Z + (bool + unit)))) : any :=
  match x with
  | inl _ => Nil
  | inr (inl s) => Str s
  | inr (inr (inl n)) => Int n
  | inr (inr (inr (inl b))) => Boolean b
  | inr (inr (inr (inr _))) => NaN
  end.

#[global] Instance any_countable : Countable any.
Proof.
  apply (inj_countable' any_encode any_decode).
  intros a; destruct a; reflexivity.
Defined.

(** [a == b] on interface values: the same dynamic type and equal values,
    where a NaN is equal to nothing, itself included. *)
Definition go_eq (a b : any) : bool :=
  match a with
  | NaN => false
  | _ => bool_decide (a = b)
  end.

(** ** Go maps *)

(** A [map[interface{}]V].  The map finds a key by [==], so an entry stored
    under a key that is not equal to itself is never found again: no lookup
    returns it, no assignment replaces it and no [delete] removes it, yet it
    is an entry of the map and [len] counts it.  [keyed] holds the entries
    under the keys that are equal to themselves; [unmatched] holds the values
    of the others, the latest first. *)
Record gomap (V : Type) : Type := { keyed : gmap any V; unmatched : list V }.
Arguments keyed {V} _.
Arguments unmatched {V} _.

(** [m[k]], with the comma-ok result as an option. *)
#[global] Instance gomap_lookup {V : Type} : Lookup any V (gomap V) :=
  λ k m, if go_eq k k then keyed m !! k else None.

(** [m[k] = v] *)
#[global] Instance gomap_insert {V : Type} : Insert any V (gomap V) :=
  λ k v m,
    if go_eq k k
    then {| keyed := <[k := v]> (keyed m); unmatched := unmatched m |}
    else {| keyed := keyed m; unmatched := v :: unmatched m |}.

(** [delete(m, k)] *)
#[global] Instance gomap_delete {V : Type} : Delete any (gomap V) :=
  λ k m,
    if go_eq k k
    then {| keyed := delete k (keyed m); unmatched := unmatched m |}
    else m.

(** [make(map[interface{}]V)] *)
#[global] Instance gomap_empty {V : Type} : Empty (gomap V) :=
  {| keyed := ∅; unmatched := [] |}.

(** [len(m)] *)
#[global] Instance gomap_size {V : Type} : Size (gomap V) :=
  λ m, (size (keyed m) + length (unmatched m))%nat.

(** A call either returns or panics with a message. *)
Inductive outcome (A : Type) : Type :=
| Returns (a : A)
| Panics (msg : string).
Arguments Returns {A} a.
Arguments Panics {A} msg.

(** The exported methods of a type with the results they declare. *)
Inductive result_type : Type := TBool | TInt | TAny.

Fixpoint method_lookup (name : string)
    (table : list (string * list result_type)) : option (list result_type) :=
  match table with
  | [] => None
  | (m, results) :: rest =>
      if decide (m = name) then Some results else method_lookup name rest
  end.

(** ** The recency cache *)

Module LRU.

(** [type Item struct { Key, Value interface{} }] *)
Record Item : Type := { Key : any; Value : any }.

(** A [list.Element] of the queue: its identity and its [Value], the
    [*Item] it was created with.  Neither is ever written again, so a
    [*list.Element] stored in the map is represented by the element. *)
Record Element : Type := { eid : nat; EValue : Item }.

#[global] Instance Item_eq_dec : EqDecision Item.
Proof. solve_decision. Defined.
#[global] Instance Element_eq_dec : EqDecision Element.
Proof. solve_decision. Defined.

(** [type LRU struct { capacity int; items map[interface{}]*list.Element;
    queue *list.List }], with the allocation counter. *)
Record LRU : Type := {
  capacity : Z;
  items : gomap Element;
  queue : list Element;
  fresh : nat
}.

(** *** container/list *)

(** [l.Len()] *)
Definition Len (l : list Element) : Z := Z.of_nat (length l).

(** [e.list == l] *)
Definition belongs (e : Element) (l : list Element) : bool :=
  bool_decide (eid e ∈ eid <$> l).

(** [l.Remove(e)]: unlinks [e] when it is an element of [l]. *)
Definition list_Remove (e : Element) (l : list Element) : list Element :=
  filter (λ x, eid x ≠ eid e) l.

(** [l.MoveToFront(e)]: nothing happens when [e] is not an element of [l]. *)
Definition MoveToFront (e : Element) (l : list Element) : list Element :=
  if belongs e l then filter (λ x, eid x = eid e) l ++ list_Remove e l else l.

(** [l.Back()] *)
Definition Back (l : list Element) : option Element := last l.

(** *** The methods *)

(** [func (L *LRU) removeLastElement()] *)
Definition removeLastElement (L : LRU) : LRU :=
  match Back (queue L) with
  | Some element =>
      let item := EValue element in
      {| capacity := capacity L;
         items := delete (Key item) (items L);
         queue := list_Remove element (queue L);
         fresh := fresh L |}
  | None => L
  end.

(** [func (L *LRU) Add(key, value interface{}) bool] *)
Definition Add (key value : any) (L : LRU) : bool * LRU :=
  match items L !! key with
  | Some element =>
      (false,
       {| capacity := capacity L;
          items := items L;
          queue := MoveToFront element (queue L);
          fresh := fresh L |})
  | None =>
      if capacity L =? 0 then (true, L)
      else
        let L1 := if Len (queue L) =? capacity L
                  then removeLastElement L else L in
        let item := {| Key := key; Value := value |} in
        let element := {| eid := fresh L1; EValue := item |} in
        (true,
         {| capacity := capacity L1;
            items := <[Key item := element]> (items L1);
            queue := element :: queue L1;
            fresh := S (fresh L1) |})
  end.

(** [func (L *LRU) Get(key interface{}) (value interface{}, ok bool)] *)
Definition Get (key : any) (L : LRU) : (any * bool) * LRU :=
  match items L !! key with
  | None => ((Str "", false), L)
  | Some element =>
      ((Value (EValue element), true),
       {| capacity := capacity L;
          items := items L;
          queue := MoveToFront element (queue L);
          fresh := fresh L |})
  end.

(** [func (L *LRU) Remove(key interface{}) (ok bool)] *)
Definition Remove (key : any) (L : LRU) : bool * LRU :=
  match items L !! key with
  | Some element =>
      (true,
       {| capacity := capacity L;
          items := delete key (items L);
          queue := list_Remove element (queue L);
          fresh := fresh L |})
  | None => (false, L)
  end.

(** [&LRU{capacity: n, items: make(...), queue: list.New()}] *)
Definition empty (n : Z) : LRU :=
  {| capacity := n; items := ∅; queue := []; fresh := 0%nat |}.

(** [func NewLRUCache(n int) cache.Cache] *)
Definition NewLRUCache (n : Z) : outcome LRU :=
  if n <=? 0 then Panics "capacity must be positive"
  else Returns (empty n).

(** The exported methods declared on [*LRU]. *)
Definition methods : list (string * list result_type) :=
  [("Add", [TBool]); ("Get", [TAny; TBool]); ("Remove", [TBool])].

(** *** Runs *)

Inductive op : Type :=
| OpAdd (key value : any)
| OpGet (key : any)
| OpRemove (key : any).

Definition step (L : LRU) (o : op) : LRU :=
  match o with
  | OpAdd k v => (Add k v L).2
  | OpGet k => (Get k L).2
  | OpRemove k => (Remove k L).2
  end.

Definition run (L : LRU) (ops : list op) : LRU := foldl step L ops.

(** *** The representation invariant *)

(** The map finds exactly the elements of the queue whose key is equal to
    itself, each under its key. *)
Record wf (L : LRU) : Prop := {
  wf_ids : NoDup (eid <$> queue L);
  wf_items : ∀ k e,
    items L !! k = Some e ↔ e ∈ queue L ∧ Key (EValue e) = k ∧ k ≠ NaN;
  wf_fresh : ∀ e, e ∈ queue L → (eid e < fresh L)%nat
}.

(** *** Keys that are equal to themselves *)

(** The call stores nothing under a key that is not equal to itself. *)
Definition plain_op (o : op) : Prop :=
  match o with
  | OpAdd k _ => k ≠ NaN
  | OpGet _ | OpRemove _ => True
  end.

(** Every key of the queue is equal to itself, and the map has as many
    entries as the queue has elements. *)
Record plain (L : LRU) : Prop := {
  plain_keys : ∀ e, e ∈ queue L → Key (EValue e) ≠ NaN;
  plain_size : size (items L) = length (queue L)
}.

End LRU.

(** ** The frequency cache *)

Module LFU.

(** [type CacheItem struct { key, value interface{}; frequency int }] *)
Record CacheItem : Type := { key : any; value : any; frequency : Z }.

(** A [list.Element] of a frequency node's [elements]: its identity and the
    [*CacheItem] it links.  The item is written in place ([item.value],
    [updatedItem.frequency]); [incrementFrequency] pushes the same item again
    after it has unlinked the element that held it, so the item is kept in
    the element that links it and a write through the pointer is a write
    there. *)
Record Element : Type := { eid : nat; Value : CacheItem }.

(** [type FrequencyNode struct { freq int; elements *list.List }] *)
Record FrequencyNode : Type := { freq : Z; elements : list Element }.

(** A [list.Element] of [freqNodes]: its identity and its [*FrequencyNode]. *)
Record NodeElement : Type := { nid : nat; node : FrequencyNode }.

#[global] Instance CacheItem_eq_dec : EqDecision CacheItem.
Proof. solve_decision. Defined.
#[global] Instance Element_eq_dec : EqDecision Element.
Proof. solve_decision. Defined.
#[global] Instance FrequencyNode_eq_dec : EqDecision FrequencyNode.
Proof. solve_decision. Defined.
#[global] Instance NodeElement_eq_dec : EqDecision NodeElement.
Proof. solve_decision. Defined.

(** [type LFUCache struct], with the allocation counter.  The two maps hold
    [*list.Element]s, here the identities of the elements. *)
Record LFUCache : Type := {
  capacity : Z;
  minFreq : Z;
  items : gomap nat;
  freqLists : gmap Z nat;
  freqNodes : list NodeElement;
  fresh : nat
}.

(** [a + b] on Go's 64-bit [int]. *)
Definition add64 (a b : Z) : Z := (a + b + 2 ^ 63) mod 2 ^ 64 - 2 ^ 63.

(** *** container/list *)

(** [l.Len()] *)
Definition Len {A : Type} (l : list A) : Z := Z.of_nat (length l).

(** [l.Remove(e)] on a list of items. *)
Definition list_Remove (e : nat) (l : list Element) : list Element :=
  filter (λ x, eid x ≠ e) l.

(** [l.PushBack(v)], the new element taking the identity [e]. *)
Definition PushBack (e : nat) (v : CacheItem) (l : list Element) : list Element :=
  l ++ [{| eid := e; Value := v |}].

(** [l.Remove(e)] on the list of frequency nodes. *)
Definition nodes_Remove (n : nat) (ns : list NodeElement) : list NodeElement :=
  filter (λ x, nid x ≠ n) ns.

(** All items of the cache, bucket after bucket. *)
Definition all_elements (ns : list NodeElement) : list Element :=
  ns ≫= (λ x, elements (node x)).

(** [e.Value.( *CacheItem)] for the element with identity [e]. *)
Definition elem_Value (e : nat) (ns : list NodeElement) : option CacheItem :=
  Value <$> head (filter (λ x, eid x = e) (all_elements ns)).

(** [e.Value.( *FrequencyNode)] for the element with identity [n]. *)
Definition node_Value (n : nat) (ns : list NodeElement) : option FrequencyNode :=
  node <$> head (filter (λ x, nid x = n) ns).

(** A write to the [elements] of the frequency node of element [n]. *)
Definition update_elements (n : nat) (f : list Element → list Element)
    (ns : list NodeElement) : list NodeElement :=
  (λ x, if decide (nid x = n)
        then {| nid := nid x;
                node := {| freq := freq (node x);
                           elements := f (elements (node x)) |} |}
        else x) <$> ns.

(** A write to the item of element [e]. *)
Definition update_item (e : nat) (f : CacheItem → CacheItem)
    (ns : list NodeElement) : list NodeElement :=
  (λ x, {| nid := nid x;
           node := {| freq := freq (node x);
                      elements :=
                        (λ y, if decide (eid y = e)
                              then {| eid := eid y; Value := f (Value y) |}
                              else y) <$> elements (node x) |} |}) <$> ns.

(** *** Calls on a cache *)

(** A method call returns, panics, or meets a map entry that holds the
    identity of no element.  The last case is no state of the Go program (a
    pointer always points to its element): [Dangling] marks where the model
    stops, and [LFUFacts.step_inv] shows that no call of a run on a new cache
    gets there. *)
Inductive result (A : Type) : Type :=
| Done (a : A) (c : LFUCache)
| Panicked (msg : string) (c : LFUCache)
| Dangling.
Arguments Done {A} a c.
Arguments Panicked {A} msg c.
Arguments Dangling {A}.

Definition M (A : Type) : Type := LFUCache → result A.

(** [return a] *)
Definition ret {A : Type} (a : A) : M A := λ c, Done a c.

(** One statement after another: a panic ends the call. *)
Definition bind {A B : Type} (m : M A) (k : A → M B) : M B :=
  λ c, match m c with
       | Done a c' => k a c'
       | Panicked msg c' => Panicked msg c'
       | Dangling => Dangling
       end.

Declare Scope lfu_scope.
Delimit Scope lfu_scope with lfu.
Notation "'let!' x := m 'in' k" := (bind m (λ x, k))
  (at level 10, x name, m at level 100, k at level 200) : lfu_scope.
Notation "m ;;; k" := (bind m (λ _, k))
  (at level 100, k at level 200, right associativity) : lfu_scope.
Local Open Scope lfu_scope.

(** A read of the cache, a write to it, a panic, and the dereference of a
    pointer read from one of the maps. *)
Definition read {A : Type} (f : LFUCache → A) : M A := λ c, Done (f c) c.

Definition write (f : LFUCache → LFUCache) : M unit := λ c, Done () (f c).

Definition panic {A : Type} (msg : string) : M A := λ c, Panicked msg c.

Definition deref {A : Type} (f : LFUCache → option A) : M A :=
  λ c, match f c with Some a => Done a c | None => Dangling end.

Definition nil_dereference : string :=
  "runtime error: invalid memory address or nil pointer dereference".

(** Field writes. *)
Definition set_minFreq (m : Z) (c : LFUCache) : LFUCache :=
  {| capacity := capacity c; minFreq := m; items := items c;
     freqLists := freqLists c; freqNodes := freqNodes c; fresh := fresh c |}.

Definition set_items (f : gomap nat → gomap nat) (c : LFUCache) : LFUCache :=
  {| capacity := capacity c; minFreq := minFreq c; items := f (items c);
     freqLists := freqLists c; freqNodes := freqNodes c; fresh := fresh c |}.

Definition set_freqLists (f : gmap Z nat → gmap Z nat) (c : LFUCache) : LFUCache :=
  {| capacity := capacity c; minFreq := minFreq c; items := items c;
     freqLists := f (freqLists c); freqNodes := freqNodes c; fresh := fresh c |}.

Definition set_freqNodes (f : list NodeElement → list NodeElement)
    (c : LFUCache) : LFUCache :=
  {| capacity := capacity c; minFreq := minFreq c; items := items c;
     freqLists := freqLists c; freqNodes := f (freqNodes c); fresh := fresh c |}.

(** A new [list.Element]: its identity. *)
Definition alloc : M nat :=
  λ c, Done (fresh c)
         {| capacity := capacity c; minFreq := minFreq c; items := items c;
            freqLists := freqLists c; freqNodes := freqNodes c;
            fresh := S (fresh c) |}.

(** *** The methods *)

(** [func (c *LFUCache) getFrequencyList(freq int) *list.List]; the inner
    [None] is the nil list. *)
Definition getFrequencyList (freq : Z) : M (option (list Element)) :=
  let! found := read (λ c, freqLists c !! freq) in
  match found with
  | Some elem =>
      let! freqNode := deref (λ c, node_Value elem (freqNodes c)) in
      ret (Some (elements freqNode))
  | None => ret None
  end.

(** The loop of [insertFrequencyNode]: the element it returns and the list
    it leaves. *)
Fixpoint insert_scan (freq : Z) (new : NodeElement) (ns : list NodeElement)
    : nat * list NodeElement :=
  match ns with
  | [] => (nid new, [new])
  | e :: rest =>
      let currentFreq := LFU.freq (node e) in
      if freq =? currentFreq then (nid e, e :: rest)
      else if freq <? currentFreq then (nid new, new :: e :: rest)
      else let r := insert_scan freq new rest in (r.1, e :: r.2)
  end.

(** [func (c *LFUCache) insertFrequencyNode(freq int, freqNode *FrequencyNode)
    *list.Element] *)
Definition insertFrequencyNode (freq : Z) (freqNode : FrequencyNode) : M nat :=
  let! e := alloc in
  let new := {| nid := e; node := freqNode |} in
  let! ns := read freqNodes in
  if (Len ns =? 0)
     || match ns with
        | front :: _ => freq <? LFU.freq (node front)
        | [] => false
        end
  then write (set_freqNodes (λ ns, new :: ns)) ;;; ret e
  else
    let r := insert_scan freq new ns in
    write (set_freqNodes (λ _, r.2)) ;;; ret r.1.

(** [func (c *LFUCache) addToFrequencyList(freq int, item *CacheItem)
    *list.Element] *)
Definition addToFrequencyList (freq : Z) (item : CacheItem) : M nat :=
  let! found := read (λ c, freqLists c !! freq) in
  let! freqNodeElem :=
    match found with
    | Some elem => ret elem
    | None =>
        let freqNode := {| LFU.freq := freq; elements := [] |} in
        let! elem := insertFrequencyNode freq freqNode in
        write (set_freqLists <[freq := elem]>) ;;;
        ret elem
    end in
  let! freqNode := deref (λ c, node_Value freqNodeElem (freqNodes c)) in
  let! e := alloc in
  write (set_freqNodes (update_elements freqNodeElem (PushBack e item))) ;;;
  ret e.

(** [func (c *LFUCache) removeFromFrequencyList(freq int, elem *list.Element)] *)
Definition removeFromFrequencyList (freq : Z) (elem : nat) : M unit :=
  let! found := read (λ c, freqLists c !! freq) in
  match found with
  | Some freqNodeElem =>
      let! freqNode := deref (λ c, node_Value freqNodeElem (freqNodes c)) in
      write (set_freqNodes (update_elements freqNodeElem (list_Remove elem))) ;;;
      if Len (list_Remove elem (elements freqNode)) =? 0
      then
        write (set_freqNodes (nodes_Remove freqNodeElem)) ;;;
        write (set_freqLists (delete freq))
      else ret ()
  | None => ret ()
  end.

(** [func (c *LFUCache) incrementFrequency(elem *list.Element)] *)
Definition incrementFrequency (elem : nat) : M unit :=
  let! item := deref (λ c, elem_Value elem (freqNodes c)) in
  let oldFreq := frequency item in
  let newFreq := add64 oldFreq 1 in
  removeFromFrequencyList oldFreq elem ;;;
  let! newElem := addToFrequencyList newFreq item in
  write (set_items <[key item := newElem]>) ;;;
  let! updatedItem := deref (λ c, elem_Value newElem (freqNodes c)) in
  write (set_freqNodes (update_item newElem (λ i,
    {| key := key i; value := value i; frequency := newFreq |}))) ;;;
  let! m := read minFreq in
  if oldFreq =? m
  then
    let! l := getFrequencyList oldFreq in
    match l with
    | None => panic nil_dereference
    | Some l => if Len l =? 0 then write (set_minFreq newFreq) else ret ()
    end
  else ret ().

(** [func (c *LFUCache) Get(key interface{}) (interface{}, bool)].  After
    [incrementFrequency], [elem.Value] is the item that the element now in
    [c.items] links. *)
Definition Get (key : any) : M (any * bool) :=
  let! found := read (λ c, items c !! key) in
  match found with
  | Some elem =>
      incrementFrequency elem ;;;
      let! item := deref (λ c, items c !! key ≫= λ e, elem_Value e (freqNodes c)) in
      ret (value item, true)
  | None => ret (Nil, false)
  end.

(** [func (c *LFUCache) evict()] *)
Definition evict : M unit :=
  let! ns := read freqNodes in
  match ns with
  | [] => ret ()
  | minFreqNodeElem :: _ =>
      let minFreqNode := node minFreqNodeElem in
      match elements minFreqNode with
      | lruElem :: _ =>
          let item := Value lruElem in
          write (set_freqNodes (update_elements (nid minFreqNodeElem)
                                  (list_Remove (eid lruElem)))) ;;;
          write (set_items (delete (key item))) ;;;
          if Len (list_Remove (eid lruElem) (elements minFreqNode)) =? 0
          then
            write (set_freqNodes (nodes_Remove (nid minFreqNodeElem))) ;;;
            write (set_freqLists (delete (freq minFreqNode)))
          else ret ()
      | [] => ret ()
      end
  end.

(** [func (c *LFUCache) Put(key, value interface{})] *)
Definition Put (key value : any) : M unit :=
  let! cap := read capacity in
  if cap =? 0 then ret ()
  else
    let! found := read (λ c, items c !! key) in
    match found with
    | Some elem =>
        let! item := deref (λ c, elem_Value elem (freqNodes c)) in
        write (set_freqNodes (update_item elem (λ i,
          {| LFU.key := LFU.key i; LFU.value := value;
             frequency := frequency i |}))) ;;;
        incrementFrequency elem
    | None =>
        let! n := read (λ c, Z.of_nat (size (items c))) in
        (if cap <=? n then evict else ret ()) ;;;
        let item := {| LFU.key := key; LFU.value := value; frequency := 1 |} in
        let! elem := addToFrequencyList 1 item in
        write (set_items <[key := elem]>) ;;;
        write (set_minFreq 1)
    end.

(** [func (c *LFUCache) Size() int] *)
Definition Size (c : LFUCache) : Z := Z.of_nat (size (items c)).

(** [func (c *LFUCache) Clear()] *)
Definition Clear (c : LFUCache) : LFUCache :=
  {| capacity := capacity c; minFreq := 0; items := ∅; freqLists := ∅;
     freqNodes := []; fresh := fresh c |}.

(** [&LFUCache{capacity: capacity, minFreq: 0, items: make(...),
    freqLists: make(...), freqNodes: list.New()}] *)
Definition empty (capacity : Z) : LFUCache :=
  {| LFU.capacity := capacity; minFreq := 0; items := ∅;
     freqLists := ∅; freqNodes := []; fresh := 0%nat |}.


(** The exported methods declared on [*LFUCache]. *)
Definition methods : list (string * list result_type) :=
  [("Get", [TAny; TBool]); ("Put", []); ("Size", [TInt]); ("Clear", [])].

(** *** Runs *)

Inductive op : Type :=
| OpPut (key value : any)
| OpGet (key : any)
| OpClear.

Definition call (o : op) : M unit :=
  match o with
  | OpPut k v => Put k v
  | OpGet k => Get k ;;; ret ()
  | OpClear => write Clear
  end.

(** The cache a call leaves behind: the one it returned with, or the one it
    panicked with, which is what a caller that recovers goes on with. *)
Definition after {A : Type} (r : result A) (c : LFUCache) : LFUCache :=
  match r with
  | Done _ c' => c'
  | Panicked _ c' => c'
  | Dangling => c
  end.

Definition step (c : LFUCache) (o : op) : LFUCache := after (call o c) c.

Definition run (c : LFUCache) (ops : list op) : LFUCache := foldl step c ops.

(** *** The representation invariant *)

(** The cached entries in the order of the lists: the frequency node (its
    identity and its [freq]) and the element of its [elements]. *)
Definition entries (ns : list NodeElement) : list (nat * Z * Element) :=
  ns ≫= (λ x, (λ y, (nid x, freq (node x), y)) <$> elements (node x)).

Record wf (c : LFUCache) : Prop := {
  wf_node_ids : NoDup (nid <$> freqNodes c);
  wf_elem_ids : NoDup ((λ p, eid p.2) <$> entries (freqNodes c));
  wf_fresh_nodes : ∀ x, x ∈ freqNodes c → (nid x < fresh c)%nat;
  wf_fresh_elems : ∀ p, p ∈ entries (freqNodes c) → (eid p.2 < fresh c)%nat;
  wf_items : ∀ k e,
    items c !! k = Some e ↔
    ∃ p, p ∈ entries (freqNodes c) ∧ eid p.2 = e ∧ key (Value p.2) = k
         ∧ k ≠ NaN;
  wf_freqLists : ∀ f n,
    freqLists c !! f = Some n ↔
    ∃ x, x ∈ freqNodes c ∧ nid x = n ∧ freq (node x) = f;
  wf_nonempty : ∀ x, x ∈ freqNodes c → elements (node x) ≠ [];
  wf_frequency : ∀ p,
    p ∈ entries (freqNodes c) → frequency (Value p.2) = p.1.2
}.

(** The same write to the [elements] of every frequency node. *)
Definition map_elements (g : list Element → list Element)
    (ns : list NodeElement) : list NodeElement :=
  (λ x, {| nid := nid x;
           node := {| freq := freq (node x);
                      elements := g (elements (node x)) |} |}) <$> ns.

(** The frequency nodes once the element [e] is unlinked and the node it
    emptied, if any, is removed. *)
Definition unlinked (e : nat) (ns : list NodeElement) : list NodeElement :=
  filter (λ x, elements (node x) ≠ []) (map_elements (list_Remove e) ns).

(** The cache once the element [y] of the frequency node [x] is unlinked:
    what [removeFromFrequencyList (freq (node x)) (eid y)] leaves. *)
Definition unlink_state (c : LFUCache) (x : NodeElement) (y : Element)
    : LFUCache :=
  {| capacity := capacity c; minFreq := minFreq c; items := items c;
     freqLists :=
       if decide (list_Remove (eid y) (elements (node x)) = [])
       then delete (freq (node x)) (freqLists c) else freqLists c;
     freqNodes := unlinked (eid y) (freqNodes c);
     fresh := fresh c |}.

(** The frequency nodes once the element [el] is linked at the back of the
    node of frequency [f], whose element in [freqNodes] is [n]: the node is
    there already, or it is new and stands after the nodes of smaller
    frequency that led the list. *)
Inductive linked (f : Z) (el : Element) (ns : list NodeElement)
    : nat → list NodeElement → Prop :=
| linked_existing a x b :
    ns = a ++ x :: b →
    freq (node x) = f →
    linked f el ns (nid x)
      (a ++ {| nid := nid x;
               node := {| freq := f; elements := elements (node x) ++ [el] |} |}
         :: b)
| linked_new n a b :
    ns = a ++ b →
    f ∉ (λ x, freq (node x)) <$> ns →
    Forall (λ z, freq (node z) < f) a →
    (∀ z, head b = Some z → f < freq (node z)) →
    linked f el ns n
      (a ++ {| nid := n; node := {| freq := f; elements := [el] |} |} :: b).

(** The frequency nodes without their elements: identity and [freq]. *)
Definition shape (ns : list NodeElement) : list (nat * Z) :=
  (λ x, (nid x, freq (node x))) <$> ns.

(** The item [i] with its [frequency] set to [f]. *)
Definition with_frequency (f : Z) (i : CacheItem) : CacheItem :=
  {| key := key i; value := value i; frequency := f |}.

(** The item [i] with its [value] set to [v]. *)
Definition with_value (v : any) (i : CacheItem) : CacheItem :=
  {| key := key i; value := v; frequency := frequency i |}.

(** The cache once the element [y] of the frequency node [x] has been moved
    to the next frequency: [e] is the new element of the item, [n] the
    element of its frequency node, [ns] the frequency nodes and [fr] the
    allocation counter. *)
Definition touched_state (c : LFUCache) (x : NodeElement) (y : Element)
    (e n : nat) (ns : list NodeElement) (fr : nat) : LFUCache :=
  {| capacity := capacity c; minFreq := minFreq c;
     items := <[key (Value y) := e]> (items c);
     freqLists := <[add64 (frequency (Value y)) 1 := n]>
                    (freqLists (unlink_state c x y));
     freqNodes := ns; fresh := fr |}.

(** [c3] is a cache that moving the element [y] of the frequency node [x]
    to the next frequency leaves. *)
Definition touch_of (c : LFUCache) (x : NodeElement) (y : Element)
    (c3 : LFUCache) : Prop :=
  ∃ e n ns fr,
    linked (add64 (frequency (Value y)) 1)
      {| eid := e;
         Value := with_frequency (add64 (frequency (Value y)) 1) (Value y) |}
      (unlinked (eid y) (freqNodes c)) n ns
    ∧ (fresh c ≤ e < fr)%nat ∧ (n < fr)%nat
    ∧ (add64 (frequency (Value y)) 1
         ∉ (shape (unlinked (eid y) (freqNodes c))).*2 → (fresh c ≤ n)%nat)
    ∧ c3 = touched_state c x y e n ns fr.

(** Where [incrementFrequency] dereferences the nil list: the element is the
    last one of its frequency node, and its frequency is [minFreq]. *)
Definition touch_panics (c : LFUCache) (x : NodeElement) (y : Element) : bool :=
  (frequency (Value y) =? minFreq c)
  && bool_decide (list_Remove (eid y) (elements (node x)) = []).

(** The cache with the [value] of the element [y] set to [v]. *)
Definition revalued (v : any) (y : Element) (c : LFUCache) : LFUCache :=
  set_freqNodes (update_item (eid y) (with_value v)) c.


(** The cache has a positive capacity, and a frequency node whenever its map
    has an entry. *)
Definition grounded (c : LFUCache) : Prop :=
  0 < capacity c ∧ (freqNodes c = [] → Size c = 0).

(** The element [y] after a write to the item of element [e]. *)
Definition written (e : nat) (g : CacheItem → CacheItem) (y : Element)
    : Element :=
  if decide (eid y = e) then {| eid := eid y; Value := g (Value y) |} else y.

(** The frequency node [x] after a write to the item of element [e]. *)
Definition written_node (e : nat) (g : CacheItem → CacheItem)
    (x : NodeElement) : NodeElement :=
  {| nid := nid x;
     node := {| freq := freq (node x);
                elements := written e g <$> elements (node x) |} |}.

(** The cache [evict] leaves: the head of the first frequency node is
    unlinked and its key deleted. *)
Definition evicted (c : LFUCache) : LFUCache :=
  match freqNodes c with
  | x :: _ =>
      match elements (node x) with
      | y :: _ => set_items (delete (key (Value y))) (unlink_state c x y)
      | [] => c
      end
  | [] => c
  end.

(** The entry [evict] removes, if any. *)
Definition victim (c : LFUCache) : option CacheItem :=
  match freqNodes c with
  | x :: _ => Value <$> head (elements (node x))
  | [] => None
  end.

(** The cache in which [Put] links a new key: [evict] has run if the cache
    was full. *)
Definition made_room (c : LFUCache) : LFUCache :=
  if capacity c <=? Size c then evicted c else c.

(** [c2] is a cache that linking the new key [k] with the value [v] in the
    cache [c1] leaves. *)
Definition insert_of (c1 : LFUCache) (k v : any) (c2 : LFUCache) : Prop :=
  ∃ e n ns fr,
    linked 1 {| eid := e; Value := {| key := k; value := v; frequency := 1 |} |}
      (freqNodes c1) n ns
    ∧ (fresh c1 ≤ e < fr)%nat ∧ (n < fr)%nat
    ∧ (1 ∉ (shape (freqNodes c1)).*2 → (fresh c1 ≤ n)%nat)
    ∧ c2 = {| capacity := capacity c1; minFreq := 1;
              items := <[k := e]> (items c1);
              freqLists := <[1 := n]> (freqLists c1);
              freqNodes := ns; fresh := fr |}.

(** What a call does to a cache of positive capacity, by cases on the call
    and on the presence of its key. *)
Definition step_spec (c : LFUCache) (o : op) (c' : LFUCache) : Prop :=
  match o with
  | OpGet k =>
      match items c !! k with
      | None => c' = c
      | Some _ =>
          ∃ x y, x ∈ freqNodes c ∧ y ∈ elements (node x)
                 ∧ key (Value y) = k ∧ touch_of c x y c'
      end
  | OpPut k v =>
      match items c !! k with
      | None => insert_of (made_room c) k v c'
      | Some _ =>
          ∃ x y, x ∈ freqNodes c ∧ y ∈ elements (node x)
                 ∧ key (Value y) = k
                 ∧ touch_of (revalued v y c)
                     (written_node (eid y) (with_value v) x)
                     {| eid := eid y; Value := with_value v (Value y) |} c'
      end
  | OpClear => c' = Clear c
  end.

(** *** Order *)

(** The frequencies increase strictly along the list of frequency nodes. *)
Definition sorted (ns : list NodeElement) : Prop :=
  StronglySorted Z.lt ((λ x, freq (node x)) <$> ns).

(** The elements of every frequency node stand in the order of the times [T]
    of their keys, the earliest at the front.  The time of a key tells
    nothing about an element whose key is not equal to itself: no call finds
    that element by its key. *)
Definition by_recency (T : any → nat) (l : list Element) : Prop :=
  StronglySorted
    (λ y1 y2, key (Value y1) ≠ NaN → key (Value y2) ≠ NaN →
              (T (key (Value y1)) < T (key (Value y2)))%nat) l.

Definition recency (T : any → nat) (ns : list NodeElement) : Prop :=
  Forall (λ x, by_recency T (elements (node x))) ns.

(** The call [o] is a [Get] or a [Put] of the key [k]. *)
Definition names (o : op) (k : any) : bool :=
  match o with
  | OpPut k' _ | OpGet k' => bool_decide (k' = k)
  | OpClear => false
  end.

(** The position, counted from 1, of the last call of a run that names the
    key [k]; 0 when none does.  [recent] reads the run backwards. *)
Fixpoint recent (k : any) (rops : list op) : nat :=
  match rops with
  | [] => 0
  | o :: older => if names o k then S (length older) else recent k older
  end.

Definition last_use (k : any) (ops : list op) : nat := recent k (rev ops).

(** The elements of every frequency node stand in the order in which they
    were allocated, the earliest at the front.  [PushBack] allocates the
    element of an entry when the entry is put and again each time it is
    touched, so this is the order of the last put or touch of the entries,
    whatever their keys are. *)
Definition by_age (l : list Element) : Prop :=
  StronglySorted (λ y1 y2, (eid y1 < eid y2)%nat) l.

Definition aged (ns : list NodeElement) : Prop :=
  Forall (λ x, by_age (elements (node x))) ns.

(** The order the cache keeps after the calls [ops]: frequency nodes by
    strictly increasing frequency, and the elements of every node by the
    last use of their keys and by their age. *)
Record ordered (ops : list op) (c : LFUCache) : Prop := {
  ordered_sorted : sorted (freqNodes c);
  ordered_recency : recency (λ k, last_use k ops) (freqNodes c);
  ordered_age : aged (freqNodes c)
}.

(** *** Keys that are equal to themselves *)

(** The call stores nothing under a key that is not equal to itself. *)
Definition plain_op (o : op) : Prop :=
  match o with
  | OpPut k _ => k ≠ NaN
  | OpGet _ | OpClear => True
  end.

(** Every cached key is equal to itself, and the map has as many entries as
    the frequency nodes have elements. *)
Record plain (c : LFUCache) : Prop := {
  plain_keys : ∀ p, p ∈ entries (freqNodes c) → key (Value p.2) ≠ NaN;
  plain_size : size (items c) = length (entries (freqNodes c))
}.

(** The access count of the key [k], read as the code reads it: through
    [c.items] to the element, and to the [frequency] of its item. *)
Definition count (k : any) (c : LFUCache) : option Z :=
  items c !! k ≫= λ e, frequency <$> elem_Value e (freqNodes c).

End LFU.

(** * Properties *)

(** ** Go maps *)

Lemma go_eq_refl (k : any) : go_eq k k = true ↔ k ≠ NaN.
Proof.
  destruct k; simpl; rewrite ?bool_decide_eq_true; split; done.
Qed.

Lemma go_eq_true (a b : any) : go_eq a b = true ↔ a = b ∧ a ≠ NaN.
Proof.
  destruct a; simpl; rewrite ?bool_decide_eq_true; split;
    try done; try (by intros [? _]); by intros [_ ?].
Qed.

Section go_maps.
Context {V : Type}.
Implicit Types (m : gomap V) (k : any) (v : V).

Lemma gomap_lookup_keyed m k : k ≠ NaN → m !! k = keyed m !! k.
Proof.
  intros Hk. unfold lookup at 1, gomap_lookup.
  by rewrite (proj2 (go_eq_refl k) Hk).
Qed.

Lemma gomap_lookup_NaN m : m !! NaN = None.
Proof. reflexivity. Qed.

Lemma gomap_lookup_Some_ne m k v : m !! k = Some v → k ≠ NaN.
Proof. intros Hk ->. by rewrite gomap_lookup_NaN in Hk. Qed.

Lemma gomap_lookup_empty k : (∅ : gomap V) !! k = None.
Proof. unfold lookup, gomap_lookup. by destruct (go_eq k k). Qed.

Lemma gomap_insert_keyed m k v :
  k ≠ NaN →
  <[k := v]> m = {| keyed := <[k := v]> (keyed m); unmatched := unmatched m |}.
Proof.
  intros Hk. unfold insert at 1, gomap_insert.
  by rewrite (proj2 (go_eq_refl k) Hk).
Qed.


Lemma gomap_delete_keyed m k :
  k ≠ NaN →
  delete k m = {| keyed := delete k (keyed m); unmatched := unmatched m |}.
Proof.
  intros Hk. unfold delete at 1, gomap_delete.
  by rewrite (proj2 (go_eq_refl k) Hk).
Qed.

Lemma gomap_delete_NaN m : delete NaN m = m.
Proof. reflexivity. Qed.

Lemma gomap_lookup_insert_eq m k v : k ≠ NaN → <[k := v]> m !! k = Some v.
Proof.
  intros Hk. rewrite gomap_lookup_keyed, gomap_insert_keyed by done.
  apply lookup_insert_eq.
Qed.

Lemma gomap_lookup_insert_ne m k k' v : k ≠ k' → <[k := v]> m !! k' = m !! k'.
Proof.
  intros Hne. destruct (decide (k' = NaN)) as [->|Hk']; [done|].
  rewrite !gomap_lookup_keyed by done.
  destruct (decide (k = NaN)) as [->|Hk]; [done|].
  rewrite gomap_insert_keyed by done. by apply lookup_insert_ne.
Qed.

Lemma gomap_lookup_insert_Some m k k' v w :
  <[k := v]> m !! k' = Some w ↔
  (k = k' ∧ k ≠ NaN ∧ v = w) ∨ (k ≠ k' ∧ m !! k' = Some w).
Proof.
  destruct (decide (k = k')) as [<-|Hne].
  - destruct (decide (k = NaN)) as [->|Hk].
    + rewrite gomap_lookup_NaN. split; [done|]. by intros [(_ & ? & _)|[? _]].
    + rewrite gomap_lookup_insert_eq by done. split.
      * intros [= ->]. by left.
      * intros [(_ & _ & ->)|[? _]]; done.
  - rewrite gomap_lookup_insert_ne by done. split.
    + intros Hw. by right.
    + by intros [[? _]|[_ ?]].
Qed.

Lemma gomap_lookup_delete_eq m k : delete k m !! k = None.
Proof.
  destruct (decide (k = NaN)) as [->|Hk]; [done|].
  rewrite gomap_lookup_keyed, gomap_delete_keyed by done.
  apply lookup_delete_eq.
Qed.

Lemma gomap_lookup_delete_ne m k k' : k ≠ k' → delete k m !! k' = m !! k'.
Proof.
  intros Hne. destruct (decide (k' = NaN)) as [->|Hk']; [done|].
  rewrite !gomap_lookup_keyed by done.
  destruct (decide (k = NaN)) as [->|Hk]; [done|].
  rewrite gomap_delete_keyed by done. by apply lookup_delete_ne.
Qed.

Lemma gomap_lookup_delete_Some m k k' w :
  delete k m !! k' = Some w ↔ k ≠ k' ∧ m !! k' = Some w.
Proof.
  destruct (decide (k = k')) as [<-|Hne].
  - rewrite gomap_lookup_delete_eq. split; [done|]. by intros [? _].
  - rewrite gomap_lookup_delete_ne by done. split; [done|]. by intros [_ ?].
Qed.

Lemma gomap_lookup_delete_None m k k' :
  delete k m !! k' = None ↔ k = k' ∨ m !! k' = None.
Proof.
  destruct (decide (k = k')) as [<-|Hne].
  - rewrite gomap_lookup_delete_eq. split; [by left|done].
  - rewrite gomap_lookup_delete_ne by done. split; [by right|].
    by intros [?|?].
Qed.





Lemma gomap_insert_delete_eq m k v : <[k := v]> (delete k m) = <[k := v]> m.
Proof.
  destruct (decide (k = NaN)) as [->|Hk]; [done|].
  rewrite !gomap_insert_keyed, gomap_delete_keyed by done. simpl.
  by rewrite insert_delete_eq.
Qed.

(** An entry under a key that is not equal to itself stays for good. *)
Lemma gomap_size_delete_None m k : m !! k = None → size (delete k m) = size m.
Proof.
  destruct (decide (k = NaN)) as [->|Hk]; [done|].
  rewrite gomap_lookup_keyed, gomap_delete_keyed by done. intros Hnone.
  unfold size, gomap_size. simpl. by rewrite map_size_delete_None.
Qed.

End go_maps.

(** ** Lists of elements with identities *)

Section identities.
Context {A : Type} (f : A → nat).

Lemma NoDup_fmap_inj (l : list A) x y :
  NoDup (f <$> l) → x ∈ l → y ∈ l → f x = f y → x = y.
Proof.
  induction l as [|a l IH]; intros Hnd Hx Hy Hf; [by apply elem_of_nil in Hx|].
  rewrite fmap_cons in Hnd. apply NoDup_cons in Hnd as [Ha Hnd].
  apply elem_of_cons in Hx as [->|Hx]; apply elem_of_cons in Hy as [->|Hy].
  - done.
  - exfalso. apply Ha. rewrite Hf. by apply list_elem_of_fmap_2.
  - exfalso. apply Ha. rewrite <- Hf. by apply list_elem_of_fmap_2.
  - by apply IH.
Qed.

Lemma filter_id_absent (l : list A) n :
  n ∉ f <$> l → filter (λ y, f y = n) l = [].
Proof.
  induction l as [|a l IH]; intros Hn; [done|].
  rewrite fmap_cons in Hn. apply not_elem_of_cons in Hn as [Hna Hn].
  rewrite filter_cons, decide_False by done. by apply IH.
Qed.

Lemma filter_other_absent (l : list A) n :
  n ∉ f <$> l → filter (λ y, f y ≠ n) l = l.
Proof.
  induction l as [|a l IH]; intros Hn; [done|].
  rewrite fmap_cons in Hn. apply not_elem_of_cons in Hn as [Hna Hn].
  rewrite filter_cons, decide_True by done. f_equal. by apply IH.
Qed.

Lemma filter_id_present (l : list A) x :
  NoDup (f <$> l) → x ∈ l → filter (λ y, f y = f x) l = [x].
Proof.
  induction l as [|a l IH]; intros Hnd Hx; [by apply elem_of_nil in Hx|].
  rewrite fmap_cons in Hnd. apply NoDup_cons in Hnd as [Ha Hnd].
  rewrite filter_cons. apply elem_of_cons in Hx as [->|Hx].
  - rewrite decide_True by done. f_equal. by apply filter_id_absent.
  - rewrite decide_False; [by apply IH|].
    intros Heq. apply Ha. rewrite Heq. by apply list_elem_of_fmap_2.
Qed.

Lemma elem_of_filter_other (l : list A) x y :
  NoDup (f <$> l) → x ∈ l →
  y ∈ filter (λ z, f z ≠ f x) l ↔ y ∈ l ∧ y ≠ x.
Proof.
  intros Hnd Hx. rewrite list_elem_of_filter. split.
  - intros [Hne Hy]. split; [done|]. by intros ->.
  - intros [Hy Hne]. split; [|done].
    intros Heq. apply Hne. by apply (NoDup_fmap_inj l).
Qed.

Lemma length_filter_other (l : list A) x :
  NoDup (f <$> l) → x ∈ l →
  S (length (filter (λ z, f z ≠ f x) l)) = length l.
Proof.
  intros Hnd Hx.
  rewrite <- (Permutation_length (filter_app_complement (λ z, f z = f x) l)).
  by rewrite filter_id_present.
Qed.
End identities.

(** ** The recency cache: the representation invariant *)

Module LRUFacts.
Import LRU.

Lemma MoveToFront_perm e l : MoveToFront e l ≡ₚ l.
Proof.
  unfold MoveToFront, list_Remove. destruct (belongs e l); [|done].
  apply (filter_app_complement (λ x, eid x = eid e)).
Qed.

Lemma MoveToFront_member e l :
  NoDup (eid <$> l) → e ∈ l → MoveToFront e l = e :: list_Remove e l.
Proof.
  intros Hnd Hin. unfold MoveToFront, belongs.
  rewrite bool_decide_eq_true_2 by (by apply list_elem_of_fmap_2).
  by rewrite (filter_id_present eid).
Qed.

Lemma wf_key_inj L e1 e2 :
  wf L → e1 ∈ queue L → e2 ∈ queue L → Key (EValue e1) ≠ NaN →
  Key (EValue e1) = Key (EValue e2) → e1 = e2.
Proof.
  intros Hwf H1 H2 Hnan Hk.
  assert (items L !! Key (EValue e1) = Some e1) as Ha
    by (by apply (wf_items L Hwf)).
  assert (items L !! Key (EValue e1) = Some e2) as Hb
    by (by apply (wf_items L Hwf)).
  congruence.
Qed.


Lemma wf_item_member L k e : wf L → items L !! k = Some e → e ∈ queue L.
Proof. intros Hwf He. by apply (wf_items L Hwf) in He as [? _]. Qed.

Lemma wf_MoveToFront L e :
  wf L →
  wf {| capacity := capacity L; items := items L;
        queue := MoveToFront e (queue L); fresh := fresh L |}.
Proof.
  intros [Hids Hitems Hfresh]. split; simpl.
  - by rewrite MoveToFront_perm.
  - intros k x. by rewrite MoveToFront_perm.
  - intros x. rewrite MoveToFront_perm. apply Hfresh.
Qed.

Lemma wf_unlink L e :
  wf L → e ∈ queue L →
  wf {| capacity := capacity L; items := delete (Key (EValue e)) (items L);
        queue := list_Remove e (queue L); fresh := fresh L |}.
Proof.
  intros Hwf He. pose proof Hwf as [Hids Hitems Hfresh]. split; simpl.
  - unfold list_Remove. apply NoDup_fmap_2_strong.
    + intros x y [_ Hx]%list_elem_of_filter [_ Hy]%list_elem_of_filter.
      by apply (NoDup_fmap_inj eid (queue L)).
    + apply NoDup_filter. by apply (NoDup_fmap_1 eid).
  - intros k x. unfold list_Remove.
    rewrite gomap_lookup_delete_Some, Hitems, (elem_of_filter_other eid)
      by done.
    split.
    + intros (Hne & Hx & Hk & Hnan). repeat split; try done. intros ->. done.
    + intros ((Hx & Hne) & Hk & Hnan). repeat split; try done.
      intros Hk'. apply Hne. apply (wf_key_inj L); congruence.
  - intros x [_ Hx]%list_elem_of_filter. by apply Hfresh.
Qed.

Lemma wf_removeLastElement L : wf L → wf (removeLastElement L).
Proof.
  intros Hwf. unfold removeLastElement, Back.
  destruct (last (queue L)) as [e|] eqn:Hlast; [|done].
  apply wf_unlink; [done|]. by apply last_Some_elem_of.
Qed.

Lemma wf_push L k v :
  wf L → items L !! k = None →
  wf {| capacity := capacity L;
        items := <[k := {| eid := fresh L; EValue := {| Key := k; Value := v |} |}]>
                   (items L);
        queue := {| eid := fresh L; EValue := {| Key := k; Value := v |} |}
                 :: queue L;
        fresh := S (fresh L) |}.
Proof.
  intros [Hids Hitems Hfresh] Hk. split; simpl.
  - apply NoDup_cons. split; [|done].
    intros (x & Hx & Hin)%list_elem_of_fmap. apply Hfresh in Hin. simpl in Hx. lia.
  - intros k' x.
    rewrite gomap_lookup_insert_Some, elem_of_cons, Hitems. split.
    + intros [(<- & Hnan & <-)|(Hne & Hx & Hk' & Hnan)];
        [by split; [left|]|by split; [right|]].
    + intros [[->|Hx] [Hk' Hnan]].
      { simpl in Hk'. subst k'. by left. }
      right. repeat split; try done.
      intros <-. assert (items L !! k = Some x) as Hs by (by apply Hitems).
      congruence.
  - intros x [->|Hx]%elem_of_cons; simpl; [lia|]. apply Hfresh in Hx. lia.
Qed.

Lemma removeLastElement_items_none L k :
  items L !! k = None → items (removeLastElement L) !! k = None.
Proof.
  intros Hk. unfold removeLastElement. destruct (Back (queue L)); [|done].
  simpl. rewrite gomap_lookup_delete_None. by right.
Qed.

Lemma wf_Add L k v : wf L → wf (Add k v L).2.
Proof.
  intros Hwf. unfold Add. destruct (items L !! k) as [e|] eqn:Hk; simpl.
  - by apply wf_MoveToFront.
  - destruct (capacity L =? 0); [done|]. simpl.
    destruct (Len (queue L) =? capacity L).
    + pose proof (wf_push (removeLastElement L) k v
        (wf_removeLastElement L Hwf) (removeLastElement_items_none L k Hk)) as H.
      exact H.
    + exact (wf_push L k v Hwf Hk).
Qed.

Lemma wf_Get L k : wf L → wf (Get k L).2.
Proof.
  intros Hwf. unfold Get. destruct (items L !! k) as [e|]; simpl; [|done].
  by apply wf_MoveToFront.
Qed.

Lemma wf_Remove L k : wf L → wf (Remove k L).2.
Proof.
  intros Hwf. unfold Remove. destruct (items L !! k) as [e|] eqn:Hk; simpl; [|done].
  apply (wf_items L Hwf) in Hk as (He & <- & _). by apply wf_unlink.
Qed.

Lemma wf_step L o : wf L → wf (step L o).
Proof. destruct o; simpl; auto using wf_Add, wf_Get, wf_Remove. Qed.

Lemma wf_run ops : ∀ L, wf L → wf (run L ops).
Proof.
  unfold run. induction ops as [|o ops IH]; intros L Hwf; [done|].
  simpl. by apply IH, wf_step.
Qed.

Lemma wf_empty n : wf (empty n).
Proof.
  split; simpl.
  - constructor.
  - intros k e. rewrite gomap_lookup_empty. split; [done|].
    by intros [?%elem_of_nil _].
  - by intros e ?%elem_of_nil.
Qed.


(** The queue never grows beyond the capacity. *)



Lemma Len_unlink L e :
  wf L → e ∈ queue L → Len (list_Remove e (queue L)) = Len (queue L) - 1.
Proof.
  intros Hwf He. unfold Len, list_Remove.
  rewrite <- (length_filter_other eid (queue L) e); [lia| |done].
  apply (wf_ids L Hwf).
Qed.




(** Runs that store no key that is not equal to itself: the map has the
    entries of the queue. *)








End LRUFacts.

(** ** The frequency cache: lists of frequency nodes *)

Module LFUFacts.
Import LFU.
Local Open Scope lfu_scope.

Lemma elem_of_entries ns n f y :
  (n, f, y) ∈ entries ns ↔
  ∃ x, x ∈ ns ∧ nid x = n ∧ freq (node x) = f ∧ y ∈ elements (node x).
Proof.
  unfold entries. rewrite list_elem_of_bind. split.
  - intros (x & Hy & Hx).
    apply list_elem_of_fmap in Hy as (y' & [= -> -> ->] & Hy'). eauto.
  - intros (x & Hx & <- & <- & Hy). exists x. split; [|done].
    apply list_elem_of_fmap. eauto.
Qed.

Lemma entries_cons x ns :
  entries (x :: ns) =
  ((λ y, (nid x, freq (node x), y)) <$> elements (node x)) ++ entries ns.
Proof. reflexivity. Qed.

Lemma entries_app ns1 ns2 : entries (ns1 ++ ns2) = entries ns1 ++ entries ns2.
Proof. unfold entries. apply bind_app. Qed.

Lemma all_elements_entries ns : all_elements ns = snd <$> entries ns.
Proof.
  induction ns as [|x ns IH]; [done|].
  rewrite entries_cons, fmap_app, <- IH, <- list_fmap_compose.
  unfold all_elements. rewrite bind_cons. f_equal.
  symmetry. apply list_fmap_id.
Qed.

Lemma tag_filter {T : Type} (t : T) (P : Element → Prop)
    `{!∀ y, Decision (P y)} (l : list Element) :
  (λ y, (t, y)) <$> filter P l = filter (λ p, P p.2) ((λ y, (t, y)) <$> l).
Proof.
  induction l as [|y l IH]; [done|].
  rewrite fmap_cons, !filter_cons. simpl.
  destruct (decide (P y)); [rewrite fmap_cons|]; by rewrite IH.
Qed.

Lemma entries_map_filter (P : Element → Prop) `{!∀ y, Decision (P y)} ns :
  entries (map_elements (filter P) ns) = filter (λ p, P p.2) (entries ns).
Proof.
  induction ns as [|x ns IH]; [done|].
  unfold map_elements in *. rewrite fmap_cons, !entries_cons, filter_app, IH.
  simpl. f_equal. apply (tag_filter (nid x, freq (node x))).
Qed.

Lemma entries_filter_nonempty ns :
  entries (filter (λ x, elements (node x) ≠ []) ns) = entries ns.
Proof.
  induction ns as [|x ns IH]; [done|].
  rewrite filter_cons. destruct (decide (elements (node x) ≠ [])) as [Hne|He].
  - by rewrite !entries_cons, IH.
  - rewrite entries_cons, IH.
    destruct (elements (node x)); [done|]. by destruct He.
Qed.

Lemma entries_unlinked e ns :
  entries (unlinked e ns) = filter (λ p, eid p.2 ≠ e) (entries ns).
Proof.
  unfold unlinked, list_Remove.
  rewrite entries_filter_nonempty.
  exact (entries_map_filter (λ y, eid y ≠ e) ns).
Qed.

Lemma elem_Value_member ns p :
  NoDup ((λ p, eid p.2) <$> entries ns) → p ∈ entries ns →
  elem_Value (eid p.2) ns = Some (Value p.2).
Proof.
  intros Hnd Hp. unfold elem_Value. rewrite all_elements_entries.
  rewrite (filter_id_present eid (snd <$> entries ns) p.2).
  - done.
  - by rewrite <- list_fmap_compose.
  - by apply list_elem_of_fmap_2.
Qed.

Lemma node_Value_member ns x :
  NoDup (nid <$> ns) → x ∈ ns → node_Value (nid x) ns = Some (node x).
Proof.
  intros Hnd Hx. unfold node_Value. by rewrite (filter_id_present nid).
Qed.

Lemma elem_Value_absent ns e :
  e ∉ (λ p, eid p.2) <$> entries ns → elem_Value e ns = None.
Proof.
  intros He. unfold elem_Value. rewrite all_elements_entries.
  rewrite (filter_id_absent eid); [done|]. by rewrite <- list_fmap_compose.
Qed.

Lemma filter_ext_in {T : Type} (P Q : T → Prop)
    `{!∀ z, Decision (P z), !∀ z, Decision (Q z)} (l : list T) :
  (∀ z, z ∈ l → P z ↔ Q z) → filter P l = filter Q l.
Proof.
  induction l as [|a l IH]; intros Hall; [done|].
  rewrite !filter_cons.
  rewrite IH by (intros z Hz; apply Hall; by right).
  destruct (decide (P a)) as [HP|HP], (decide (Q a)) as [HQ|HQ]; try done.
  - destruct HQ. apply Hall; [by left|done].
  - destruct HP. apply Hall; [by left|done].
Qed.

Lemma filter_all_in {T : Type} (P : T → Prop) `{!∀ z, Decision (P z)}
    (l : list T) :
  (∀ z, z ∈ l → P z) → filter P l = l.
Proof.
  induction l as [|a l IH]; intros Hall; [done|].
  rewrite filter_cons, decide_True by (apply Hall; by left).
  f_equal. apply IH. intros z Hz. apply Hall. by right.
Qed.

Lemma update_elements_map n g ns :
  (∀ x, x ∈ ns → nid x ≠ n → g (elements (node x)) = elements (node x)) →
  update_elements n g ns = map_elements g ns.
Proof.
  intros H. unfold update_elements, map_elements.
  apply list_fmap_ext. intros i x Hx.
  destruct (decide (nid x = n)) as [|Hne]; [done|].
  rewrite H; [by destruct x as [? []]|by eapply list_elem_of_lookup_2|done].
Qed.

Lemma elem_of_map_elements g ns z :
  z ∈ map_elements g ns ↔
  ∃ x, x ∈ ns ∧ nid z = nid x ∧ freq (node z) = freq (node x)
       ∧ elements (node z) = g (elements (node x)).
Proof.
  unfold map_elements. rewrite list_elem_of_fmap. split.
  - intros (x & -> & Hx). by exists x.
  - intros (x & Hx & H1 & H2 & H3). exists x. split; [|done].
    destruct z as [? []]. simpl in *. by subst.
Qed.

Lemma nid_map_elements g ns : nid <$> map_elements g ns = nid <$> ns.
Proof. unfold map_elements. rewrite <- list_fmap_compose. done. Qed.

Section one_entry.
Context (ns : list NodeElement) (x : NodeElement) (y : Element).
Context (Hnodes : NoDup (nid <$> ns)).
Context (Helems : NoDup ((λ p, eid p.2) <$> entries ns)).
Context (Hnonempty : ∀ x, x ∈ ns → elements (node x) ≠ []).
Context (Hx : x ∈ ns) (Hy : y ∈ elements (node x)).

Lemma other_node_untouched x' :
  x' ∈ ns → nid x' ≠ nid x →
  list_Remove (eid y) (elements (node x')) = elements (node x').
Proof.
  intros Hx' Hne. unfold list_Remove. apply (filter_other_absent eid).
  intros (y' & Heq & Hy')%list_elem_of_fmap. apply Hne.
  assert ((nid x, freq (node x), y) = (nid x', freq (node x'), y')) as Hp.
  { apply (NoDup_fmap_inj (λ p, eid p.2) (entries ns)); [done| | |done].
    - apply elem_of_entries. by exists x.
    - apply elem_of_entries. by exists x'. }
  congruence.
Qed.

Lemma update_elements_Remove :
  update_elements (nid x) (list_Remove (eid y)) ns
  = map_elements (list_Remove (eid y)) ns.
Proof. apply update_elements_map. intros x'. apply other_node_untouched. Qed.

Lemma elem_of_unlinked z :
  z ∈ unlinked (eid y) ns ↔
  (z ∈ ns ∧ nid z ≠ nid x)
  ∨ (z = {| nid := nid x;
            node := {| freq := freq (node x);
                       elements := list_Remove (eid y) (elements (node x)) |} |}
     ∧ list_Remove (eid y) (elements (node x)) ≠ []).
Proof.
  unfold unlinked. rewrite list_elem_of_filter, elem_of_map_elements. split.
  - intros (Hne & x' & Hx' & H1 & H2 & H3).
    destruct (decide (nid x' = nid x)) as [Heq|Hneq].
    + assert (x' = x) as -> by (by apply (NoDup_fmap_inj nid ns)).
      right. split; [|congruence]. destruct z as [? []]. simpl in *. by subst.
    + left. rewrite other_node_untouched in H3 by done.
      assert (z = x') as ->; [|split; [done|congruence]].
      destruct z as [? []], x' as [? []]. simpl in *. by subst.
  - intros [[Hz Hne]|[-> Hne]].
    + split; [by apply Hnonempty|]. exists z.
      by rewrite other_node_untouched.
    + split; [done|]. by exists x.
Qed.

Lemma unlinked_emptied :
  list_Remove (eid y) (elements (node x)) = [] →
  nodes_Remove (nid x) (map_elements (list_Remove (eid y)) ns)
  = unlinked (eid y) ns.
Proof.
  intros Hempty. unfold nodes_Remove, unlinked. apply filter_ext_in.
  intros z (x' & Hx' & H1 & H2 & H3)%elem_of_map_elements.
  rewrite H1, H3. split.
  - intros Hne. rewrite other_node_untouched by done. by apply Hnonempty.
  - intros Hne Heq. apply Hne.
    assert (x' = x) as -> by (by apply (NoDup_fmap_inj nid ns)). done.
Qed.

Lemma unlinked_kept :
  list_Remove (eid y) (elements (node x)) ≠ [] →
  map_elements (list_Remove (eid y)) ns = unlinked (eid y) ns.
Proof.
  intros Hkept. unfold unlinked. symmetry. apply filter_all_in.
  intros z (x' & Hx' & H1 & H2 & H3)%elem_of_map_elements. rewrite H3.
  destruct (decide (nid x' = nid x)) as [Heq|Hneq].
  - assert (x' = x) as -> by (by apply (NoDup_fmap_inj nid ns)). done.
  - rewrite other_node_untouched by done. by apply Hnonempty.
Qed.

End one_entry.

Ltac fields := cbn [capacity minFreq items freqLists freqNodes fresh].

Lemma Len_zero {T : Type} (l : list T) : (Len l =? 0) = bool_decide (l = []).
Proof. by destruct l. Qed.

Lemma wf_freqLists_member c x :
  wf c → x ∈ freqNodes c → freqLists c !! freq (node x) = Some (nid x).
Proof. intros Hwf Hx. apply (wf_freqLists c Hwf). by exists x. Qed.

Lemma wf_entry c x y :
  wf c → x ∈ freqNodes c → y ∈ elements (node x) →
  (nid x, freq (node x), y) ∈ entries (freqNodes c).
Proof. intros Hwf Hx Hy. apply elem_of_entries. by exists x. Qed.

Lemma wf_items_member c x y :
  wf c → x ∈ freqNodes c → y ∈ elements (node x) → key (Value y) ≠ NaN →
  items c !! key (Value y) = Some (eid y).
Proof.
  intros Hwf Hx Hy Hnan. apply (wf_items c Hwf).
  exists (nid x, freq (node x), y). split; [|done]. by apply wf_entry.
Qed.

Lemma removeFromFrequencyList_exact c x y :
  wf c → x ∈ freqNodes c → y ∈ elements (node x) →
  removeFromFrequencyList (freq (node x)) (eid y) c
  = Done () (unlink_state c x y).
Proof.
  intros Hwf Hx Hy. pose proof Hwf as [Hn He _ _ _ _ Hne _].
  unfold removeFromFrequencyList, bind, read, deref, write, ret.
  rewrite (wf_freqLists_member c x Hwf Hx).
  rewrite (node_Value_member _ x Hn Hx). simpl.
  rewrite Len_zero. unfold unlink_state, set_freqLists, set_freqNodes.
  destruct (decide (list_Remove (eid y) (elements (node x)) = [])) as [Hd|Hd].
  - rewrite bool_decide_eq_true_2 by done.
    fields.
    rewrite (update_elements_Remove _ x y He Hx Hy).
    by rewrite (unlinked_emptied _ x y Hn He Hne Hx Hy Hd).
  - rewrite bool_decide_eq_false_2 by done.
    fields.
    rewrite (update_elements_Remove _ x y He Hx Hy).
    by rewrite (unlinked_kept _ x y Hn He Hne Hx Hy Hd).
Qed.

Lemma unlink_wf c x y :
  wf c → x ∈ freqNodes c → y ∈ elements (node x) →
  wf (set_items (delete (key (Value y))) (unlink_state c x y)).
Proof.
  intros Hwf Hx Hy.
  pose proof Hwf as [Hn He Hfn Hfe Hitems Hfl Hne Hfreq].
  pose proof (wf_entry c x y Hwf Hx Hy) as Hp.
  split; unfold set_items, unlink_state; fields.
  - eapply sublist_NoDup; [exact Hn|].
    rewrite <- (nid_map_elements (list_Remove (eid y)) (freqNodes c)).
    unfold unlinked. apply fmap_sublist, sublist_filter.
  - rewrite entries_unlinked. eapply sublist_NoDup; [exact He|].
    apply fmap_sublist, sublist_filter.
  - intros z [[Hz _]|[-> _]]%(elem_of_unlinked _ x y Hn He Hne Hx Hy);
      [|simpl]; auto.
  - intros p. rewrite entries_unlinked.
    intros [_ Hin]%list_elem_of_filter. auto.
  - intros k e.
    rewrite entries_unlinked, gomap_lookup_delete_Some, Hitems. split.
    + intros (Hk & p & Hin & <- & <- & Hnan). exists p. split; [|done].
      apply list_elem_of_filter. split; [|done]. intros Heq. apply Hk.
      by rewrite (NoDup_fmap_inj _ _ _ _ He Hin Hp Heq).
    + intros (p & [Hneq Hin]%list_elem_of_filter & <- & <- & Hnan).
      split; [|by exists p]. intros Hk. apply Hneq.
      assert (items c !! key (Value p.2) = Some (eid p.2)) as H1
        by (apply Hitems; by exists p).
      assert (items c !! key (Value y) = Some (eid y)) as H2
        by (apply (wf_items_member c x); [done..|by rewrite Hk]).
      congruence.
  - intros f n.
    destruct (decide (list_Remove (eid y) (elements (node x)) = [])) as [Hd|Hd].
    + rewrite lookup_delete_Some, Hfl. split.
      * intros (Hf & z & Hz & <- & <-). exists z. split; [|done].
        apply (elem_of_unlinked _ x y Hn He Hne Hx Hy). left. split; [done|].
        intros Heq.
        by rewrite (NoDup_fmap_inj nid _ _ _ Hn Hz Hx Heq) in Hf.
      * intros (z & [[Hz Hneq]|[-> ?]]%(elem_of_unlinked _ x y Hn He Hne Hx Hy)
                  & <- & <-); [|done].
        split; [|by exists z]. intros Hf. apply Hneq.
        pose proof (wf_freqLists_member c x Hwf Hx) as H1.
        pose proof (wf_freqLists_member c z Hwf Hz) as H2.
        congruence.
    + rewrite Hfl. split.
      * intros (z & Hz & <- & <-).
        destruct (decide (nid z = nid x)) as [Heq|Hneq].
        -- rewrite (NoDup_fmap_inj nid _ _ _ Hn Hz Hx Heq).
           exists {| nid := nid x;
                     node := {| freq := freq (node x);
                                elements := list_Remove (eid y)
                                              (elements (node x)) |} |}.
           split; [|done].
           apply (elem_of_unlinked _ x y Hn He Hne Hx Hy). by right.
        -- exists z. split; [|done].
           apply (elem_of_unlinked _ x y Hn He Hne Hx Hy). by left.
      * intros (z & [[Hz Hneq]|[-> ?]]%(elem_of_unlinked _ x y Hn He Hne Hx Hy)
                  & <- & <-); [by exists z|by exists x].
  - intros z. unfold unlinked. by intros [? _]%list_elem_of_filter.
  - intros p. rewrite entries_unlinked.
    intros [_ Hin]%list_elem_of_filter. auto.
Qed.

Lemma elem_of_shape ns n f :
  (n, f) ∈ shape ns ↔ ∃ x, x ∈ ns ∧ nid x = n ∧ freq (node x) = f.
Proof.
  unfold shape. rewrite list_elem_of_fmap. split.
  - intros (x & [= -> ->] & Hx). by exists x.
  - intros (x & Hx & <- & <-). by exists x.
Qed.

Lemma shape_nid ns : (shape ns).*1 = nid <$> ns.
Proof. unfold shape. by rewrite <- list_fmap_compose. Qed.

Lemma shape_freq ns : (shape ns).*2 = (λ x, freq (node x)) <$> ns.
Proof. unfold shape. by rewrite <- list_fmap_compose. Qed.

Lemma shape_app ns1 ns2 : shape (ns1 ++ ns2) = shape ns1 ++ shape ns2.
Proof. unfold shape. apply fmap_app. Qed.

Lemma insert_scan_split f new ns :
  f ∉ (λ x, freq (node x)) <$> ns →
  ∃ a b, ns = a ++ b
    ∧ insert_scan f new ns = (nid new, a ++ new :: b)
    ∧ Forall (λ z, freq (node z) < f) a
    ∧ (∀ z, head b = Some z → f < freq (node z)).
Proof.
  induction ns as [|e rest IH]; intros Hf.
  - exists [], []. repeat split; [constructor|]. by intros z.
  - rewrite fmap_cons in Hf. apply not_elem_of_cons in Hf as [Hne Hf].
    simpl. rewrite (proj2 (Z.eqb_neq _ _)) by done.
    destruct (f <? freq (node e)) eqn:Hlt.
    + exists [], (e :: rest). repeat split; [constructor|].
      intros z [= <-]. by apply Z.ltb_lt.
    + destruct (IH Hf) as (a & b & -> & -> & Ha & Hb).
      exists (e :: a), b. repeat split; [|done].
      constructor; [|done]. apply Z.ltb_ge in Hlt. lia.
Qed.

Lemma insertFrequencyNode_exact f fn c :
  f ∉ (λ x, freq (node x)) <$> freqNodes c →
  ∃ a b, freqNodes c = a ++ b
    ∧ insertFrequencyNode f fn c
      = Done (fresh c)
          {| capacity := capacity c; minFreq := minFreq c; items := items c;
             freqLists := freqLists c;
             freqNodes := a ++ {| nid := fresh c; node := fn |} :: b;
             fresh := S (fresh c) |}
    ∧ Forall (λ z, freq (node z) < f) a
    ∧ (∀ z, head b = Some z → f < freq (node z)).
Proof.
  intros Hf. unfold insertFrequencyNode, bind, alloc, read, write, ret.
  fields.
  destruct ((Len (freqNodes c) =? 0)
            || match freqNodes c with
               | front :: _ => f <? freq (node front)
               | [] => false
               end) eqn:Hfront.
  - exists [], (freqNodes c). repeat split; [constructor|].
    intros z Hz. destruct (freqNodes c) as [|front ns]; [done|].
    simpl in Hz, Hfront. injection Hz as <-. by apply Z.ltb_lt.
  - destruct (insert_scan_split f {| nid := fresh c; node := fn |}
                (freqNodes c) Hf) as (a & b & Hns & Hscan & Ha & Hb).
    exists a, b. rewrite Hscan. done.
Qed.

Lemma update_elements_absent n g ns :
  n ∉ nid <$> ns → update_elements n g ns = ns.
Proof.
  intros Hn. unfold update_elements.
  rewrite <- (list_fmap_id ns) at 2. apply list_fmap_ext.
  intros i x Hx. rewrite decide_False; [done|].
  intros <-. apply Hn. apply list_elem_of_fmap_2.
  by eapply list_elem_of_lookup_2.
Qed.

Lemma update_elements_split n g a x b :
  nid x = n → n ∉ nid <$> a → n ∉ nid <$> b →
  update_elements n g (a ++ x :: b)
  = a ++ {| nid := nid x;
            node := {| freq := freq (node x);
                       elements := g (elements (node x)) |} |} :: b.
Proof.
  intros Hx Ha Hb.
  pose proof (update_elements_absent n g a Ha) as Ha'.
  pose proof (update_elements_absent n g b Hb) as Hb'.
  unfold update_elements in *.
  rewrite fmap_app, fmap_cons, Ha', Hb'. by rewrite decide_True.
Qed.

Lemma addToFrequencyList_exact f item c :
  NoDup (nid <$> freqNodes c) →
  (∀ x, x ∈ freqNodes c → (nid x < fresh c)%nat) →
  (∀ f n, freqLists c !! f = Some n ↔
          ∃ x, x ∈ freqNodes c ∧ nid x = n ∧ freq (node x) = f) →
  ∃ e n ns fr,
    addToFrequencyList f item c
    = Done e {| capacity := capacity c; minFreq := minFreq c; items := items c;
                freqLists := <[f := n]> (freqLists c);
                freqNodes := ns; fresh := fr |}
    ∧ linked f {| eid := e; Value := item |} (freqNodes c) n ns
    ∧ (fresh c ≤ e < fr)%nat
    ∧ (n < fr)%nat
    ∧ (f ∉ (shape (freqNodes c)).*2 → (fresh c ≤ n)%nat).
Proof.
  intros Hn Hfn Hfl.
  unfold addToFrequencyList. unfold bind at 1. unfold read at 1.
  destruct (freqLists c !! f) as [n|] eqn:Hlook.
  - apply Hfl in Hlook as Hx. destruct Hx as (x & Hx & <- & <-).
    apply list_elem_of_split in Hx as (a & b & Hns).
    exists (fresh c), (nid x),
      (a ++ {| nid := nid x;
               node := {| freq := freq (node x);
                          elements := elements (node x)
                                      ++ [{| eid := fresh c; Value := item |}] |} |}
         :: b), (S (fresh c)).
    rewrite Hns in Hn. rewrite fmap_app, fmap_cons in Hn.
    apply NoDup_app in Hn as (_ & Ha & [Hb _]%NoDup_cons).
    assert (nid x ∉ nid <$> a) as Ha'.
    { intros Hin. apply (Ha _ Hin). by left. }
    repeat split.
    + unfold bind, ret, deref, alloc, write, set_freqNodes. fields.
      rewrite Hns at 1. unfold node_Value.
      rewrite filter_app, filter_cons, decide_True by done.
      rewrite (filter_id_absent nid a) by done. simpl.
      rewrite Hns, (update_elements_split (nid x)) by done.
      rewrite insert_id by done. done.
    + by constructor.
    + done.
    + lia.
    + assert (x ∈ freqNodes c) as Hx
        by (rewrite Hns; apply elem_of_app; right; by left).
      apply Hfn in Hx. lia.
    + intros Hf. destruct Hf. rewrite shape_freq.
      apply list_elem_of_fmap. exists x. split; [done|].
      rewrite Hns. apply elem_of_app. right. by left.
  - assert (f ∉ (λ x, freq (node x)) <$> freqNodes c) as Hf.
    { intros (x & -> & Hx)%list_elem_of_fmap.
      assert (freqLists c !! freq (node x) = Some (nid x)) as Hs
        by (apply (Hfl (freq (node x)) (nid x)); by exists x).
      congruence. }
    destruct (insertFrequencyNode_exact f {| freq := f; elements := [] |} c Hf)
      as (a & b & Hns & Hins & Ha & Hb).
    exists (S (fresh c)), (fresh c),
      (a ++ {| nid := fresh c;
               node := {| freq := f;
                          elements := [{| eid := S (fresh c); Value := item |}] |} |}
         :: b), (S (S (fresh c))).
    assert (fresh c ∉ nid <$> freqNodes c) as Hfr.
    { intros (x & Heq & Hx)%list_elem_of_fmap. apply Hfn in Hx. lia. }
    rewrite Hns, fmap_app in Hfr. apply not_elem_of_app in Hfr as [Hfa Hfb].
    repeat split.
    + unfold bind at 1. unfold bind at 1. rewrite Hins.
      unfold bind, ret, deref, alloc, write, set_freqNodes, set_freqLists.
      fields. unfold node_Value.
      rewrite filter_app, filter_cons, decide_True by done.
      rewrite (filter_id_absent nid a) by done. simpl.
      rewrite (update_elements_split (fresh c)) by done. done.
    + by constructor.
    + lia.
    + lia.
    + lia.
    + lia.
Qed.

Lemma linked_entries f el ns n ns2 :
  linked f el ns n ns2 → entries ns2 ≡ₚ (n, f, el) :: entries ns.
Proof.
  intros [a x b -> <-|n' a b -> _ _ _].
  - rewrite !entries_app, !entries_cons. simpl. rewrite fmap_app. simpl.
    rewrite <- !app_assoc. simpl.
    rewrite <- !Permutation_middle. done.
  - rewrite !entries_app, !entries_cons. simpl.
    rewrite <- Permutation_middle. done.
Qed.

Lemma linked_shape f el ns n ns2 :
  linked f el ns n ns2 →
  (shape ns2 = shape ns ∧ (n, f) ∈ shape ns)
  ∨ (shape ns2 ≡ₚ (n, f) :: shape ns ∧ f ∉ (shape ns).*2).
Proof.
  intros [a x b -> <-|n' a b -> Hf _ _].
  - left. rewrite !shape_app. split; [done|].
    apply elem_of_app. right. by left.
  - right. rewrite shape_freq. split; [|done].
    rewrite !shape_app. simpl. by rewrite <- Permutation_middle.
Qed.

Lemma linked_nonempty f el ns n ns2 :
  linked f el ns n ns2 →
  (∀ x, x ∈ ns → elements (node x) ≠ []) →
  ∀ x, x ∈ ns2 → elements (node x) ≠ [].
Proof.
  intros [a x b -> <-|n' a b -> _ _ _] Hne z Hz.
  - apply elem_of_app in Hz as [Hz|[->|Hz]%elem_of_cons].
    + apply Hne. apply elem_of_app. by left.
    + simpl. by destruct (elements (node x)).
    + apply Hne. apply elem_of_app. right. by right.
  - apply elem_of_app in Hz as [Hz|[->|Hz]%elem_of_cons].
    + apply Hne. apply elem_of_app. by left.
    + done.
    + apply Hne. apply elem_of_app. by right.
Qed.

Lemma linked_wf c f el n ns2 fr m :
  wf c →
  linked f el (freqNodes c) n ns2 →
  items c !! key (Value el) = None →
  (fresh c ≤ eid el < fr)%nat →
  (n < fr)%nat →
  (f ∉ (shape (freqNodes c)).*2 → (fresh c ≤ n)%nat) →
  frequency (Value el) = f →
  wf {| capacity := capacity c; minFreq := m;
        items := <[key (Value el) := eid el]> (items c);
        freqLists := <[f := n]> (freqLists c);
        freqNodes := ns2; fresh := fr |}.
Proof.
  intros Hwf Hl Hk He Hn Hnew Hfreq.
  pose proof Hwf as [Hnd Hed Hfn Hfe Hitems Hfl Hne Hfq].
  pose proof (linked_entries _ _ _ _ _ Hl) as Hent.
  pose proof (linked_shape _ _ _ _ _ Hl) as Hsh.
  assert (∀ n' f', (n', f') ∈ shape (freqNodes c) → (n' < fresh c)%nat) as Hfs.
  { intros n' f' (x & Hx & <- & _)%elem_of_shape. auto. }
  split; fields.
  - rewrite <- shape_nid. destruct Hsh as [[-> _]|[-> Hf]].
    + by rewrite shape_nid.
    + rewrite fmap_cons, shape_nid. apply NoDup_cons. split; [|done].
      intros (x & Heq & Hx)%list_elem_of_fmap. apply Hfn in Hx.
      simpl in Heq. specialize (Hnew Hf). lia.
  - rewrite Hent, fmap_cons. apply NoDup_cons. split; [|done].
    intros (p & Hp & Hin)%list_elem_of_fmap. apply Hfe in Hin.
    simpl in Hp. lia.
  - intros z Hz.
    assert ((nid z, freq (node z)) ∈ shape ns2) as Hin
      by (apply elem_of_shape; by exists z).
    destruct Hsh as [[Heq _]|[Heq _]]; rewrite Heq in Hin.
    + apply Hfs in Hin. lia.
    + apply elem_of_cons in Hin as [[= -> _]|Hin]; [done|].
      apply Hfs in Hin. lia.
  - intros p. rewrite Hent. intros [->|Hin]%elem_of_cons; [simpl; lia|].
    apply Hfe in Hin. lia.
  - intros k e. rewrite gomap_lookup_insert_Some, Hitems. split.
    + intros [(<- & Hnan & <-)|(Hneq & p & Hin & Hp)].
      * exists (n, f, el). split; [|done]. rewrite Hent. by left.
      * exists p. split; [|done]. rewrite Hent. by right.
    + intros (p & Hin & <- & <- & Hnan). rewrite Hent in Hin.
      apply elem_of_cons in Hin as [->|Hin]; [by left|]. right.
      split; [|by exists p]. intros Heq.
      assert (items c !! key (Value p.2) = Some (eid p.2)) as Hs
        by (apply Hitems; by exists p).
      congruence.
  - intros f' n'. rewrite <- elem_of_shape.
    destruct Hsh as [[-> Hin]|[-> Hf]].
    + rewrite insert_id; [by rewrite Hfl, <- elem_of_shape|].
      apply Hfl. by apply elem_of_shape.
    + rewrite lookup_insert_Some, elem_of_cons, Hfl, <- elem_of_shape. split.
      * intros [[<- <-]|[_ Hin]]; [by left|by right].
      * intros [[= -> ->]|Hin]; [by left|]. right. split; [|done].
        intros <-. apply Hf. apply list_elem_of_fmap. by exists (n', f).
  - by apply (linked_nonempty _ _ _ _ _ Hl).
  - intros p. rewrite Hent. intros [->|Hin]%elem_of_cons; [done|]. auto.
Qed.

Lemma add64_neq z : add64 z 1 ≠ z.
Proof.
  unfold add64. intros H.
  assert ((z + 1 + 2 ^ 63) mod 2 ^ 64 = z + 2 ^ 63) as Hm by lia.
  pose proof (Z.mod_pos_bound (z + 1 + 2 ^ 63) (2 ^ 64) ltac:(lia)) as Hb.
  assert ((z + 2 ^ 63) mod 2 ^ 64 = z + 2 ^ 63) as Hm'
    by (apply Z.mod_small; lia).
  assert ((z + 1 + 2 ^ 63 - (z + 2 ^ 63)) mod 2 ^ 64 = 0) as Hz.
  { rewrite Zminus_mod, Hm, Hm', Z.sub_diag. done. }
  replace (z + 1 + 2 ^ 63 - (z + 2 ^ 63)) with 1 in Hz by lia.
  done.
Qed.

Lemma update_item_absent e g ns :
  e ∉ (λ p, eid p.2) <$> entries ns → update_item e g ns = ns.
Proof.
  intros He. unfold update_item.
  rewrite <- (list_fmap_id ns) at 2. apply list_fmap_ext.
  intros i x Hx%list_elem_of_lookup_2.
  assert (((λ y, if decide (eid y = e)
                 then {| eid := eid y; Value := g (Value y) |} else y)
           <$> elements (node x)) = elements (node x)) as ->.
  { rewrite <- (list_fmap_id (elements (node x))) at 2. apply list_fmap_ext.
    intros j y Hy%list_elem_of_lookup_2.
    rewrite decide_False; [done|]. intros <-. apply He.
    apply list_elem_of_fmap. exists (nid x, freq (node x), y).
    split; [done|]. apply elem_of_entries. by exists x. }
  by destruct x as [? []].
Qed.

Lemma update_item_app e g ns1 ns2 :
  update_item e g (ns1 ++ ns2) = update_item e g ns1 ++ update_item e g ns2.
Proof. unfold update_item. apply fmap_app. Qed.

Lemma update_item_linked f el ns n ns2 g :
  eid el ∉ (λ p, eid p.2) <$> entries ns →
  linked f el ns n ns2 →
  linked f {| eid := eid el; Value := g (Value el) |} ns n
    (update_item (eid el) g ns2).
Proof.
  intros He Hl. destruct Hl as [a x b Hns Hf|n' a b Hns Hf Ha Hb].
  - assert (update_item (eid el) g ns = ns) as Hid
      by (by apply update_item_absent).
    rewrite Hns, update_item_app in Hid.
    apply app_inj_1 in Hid as [Hida Hidb];
      [|unfold update_item; by rewrite length_fmap].
    change (x :: b) with ([x] ++ b) in Hidb.
    rewrite update_item_app in Hidb.
    apply app_inj_1 in Hidb as [Hidx Hidb]; [|done].
    rewrite update_item_app.
    change (?z :: b) with ([z] ++ b). rewrite update_item_app, Hida, Hidb.
    unfold update_item in Hidx |- *. simpl in Hidx |- *.
    injection Hidx as Hidx.
    apply (f_equal (λ z, elements (node z))) in Hidx. simpl in Hidx.
    rewrite fmap_app, Hidx. simpl.
    rewrite decide_True by done.
    by apply (linked_existing f _ ns a x b).
  - assert (update_item (eid el) g ns = ns) as Hid
      by (by apply update_item_absent).
    rewrite Hns, update_item_app in Hid.
    apply app_inj_1 in Hid as [Hida Hidb];
      [|unfold update_item; by rewrite length_fmap].
    rewrite update_item_app.
    change (?z :: b) with ([z] ++ b). rewrite update_item_app, Hida, Hidb.
    unfold update_item. simpl. rewrite decide_True by done.
    by apply (linked_new f _ ns n' a b).
Qed.

Lemma linked_other f el ns n ns2 z :
  linked f el ns n ns2 → z ∈ ns → freq (node z) ≠ f → z ∈ ns2.
Proof.
  intros [a x b -> <-|n' a b -> _ _ _] Hz Hne.
  - apply elem_of_app in Hz as [Hz|[->|Hz]%elem_of_cons].
    + apply elem_of_app. by left.
    + done.
    + apply elem_of_app. right. by right.
  - apply elem_of_app in Hz as [Hz|Hz]; apply elem_of_app; [by left|].
    right. by right.
Qed.

Lemma linked_elem_ids f el ns n ns2 :
  linked f el ns n ns2 →
  NoDup ((λ p, eid p.2) <$> entries ns) →
  eid el ∉ (λ p, eid p.2) <$> entries ns →
  NoDup ((λ p, eid p.2) <$> entries ns2).
Proof.
  intros Hl Hnd He. rewrite (linked_entries _ _ _ _ _ Hl), fmap_cons.
  by apply NoDup_cons.
Qed.

Lemma getFrequencyList_eq f c :
  getFrequencyList f c
  = match freqLists c !! f with
    | Some elem =>
        match node_Value elem (freqNodes c) with
        | Some freqNode => Done (Some (elements freqNode)) c
        | None => Dangling
        end
    | None => Done None c
    end.
Proof.
  unfold getFrequencyList, bind, read, deref, ret.
  destruct (freqLists c !! f) as [elem|]; [|done].
  by destruct (node_Value elem (freqNodes c)).
Qed.

Lemma touched_wf c x y e n ns fr :
  wf c → x ∈ freqNodes c → y ∈ elements (node x) →
  linked (add64 (frequency (Value y)) 1)
    {| eid := e;
       Value := with_frequency (add64 (frequency (Value y)) 1) (Value y) |}
    (unlinked (eid y) (freqNodes c)) n ns →
  (fresh c ≤ e < fr)%nat → (n < fr)%nat →
  (add64 (frequency (Value y)) 1 ∉ (shape (unlinked (eid y) (freqNodes c))).*2
   → (fresh c ≤ n)%nat) →
  wf (touched_state c x y e n ns fr).
Proof.
  intros Hwf Hx Hy Hl He Hn Hnew.
  pose proof (unlink_wf c x y Hwf Hx Hy) as Hwf1.
  pose proof (linked_wf _ _ _ _ _ fr (minFreq c) Hwf1 Hl) as H.
  simpl in H. rewrite gomap_insert_delete_eq in H.
  apply H; try done. apply gomap_lookup_delete_eq.
Qed.

Lemma incrementFrequency_exact c x y :
  wf c → x ∈ freqNodes c → y ∈ elements (node x) →
  ∃ e n ns fr,
    linked (add64 (frequency (Value y)) 1)
      {| eid := e;
         Value := with_frequency (add64 (frequency (Value y)) 1) (Value y) |}
      (unlinked (eid y) (freqNodes c)) n ns
    ∧ (fresh c ≤ e < fr)%nat ∧ (n < fr)%nat
    ∧ (add64 (frequency (Value y)) 1
         ∉ (shape (unlinked (eid y) (freqNodes c))).*2 → (fresh c ≤ n)%nat)
    ∧ incrementFrequency (eid y) c
      = if (frequency (Value y) =? minFreq c)
           && bool_decide (list_Remove (eid y) (elements (node x)) = [])
        then Panicked nil_dereference (touched_state c x y e n ns fr)
        else Done () (touched_state c x y e n ns fr).
Proof.
  intros Hwf Hx Hy.
  pose proof (wf_entry c x y Hwf Hx Hy) as Hp.
  pose proof (wf_frequency c Hwf _ Hp) as Hfq. simpl in Hfq.
  pose proof (unlink_wf c x y Hwf Hx Hy) as Hwf1.
  set (newFreq := add64 (frequency (Value y)) 1).
  destruct (addToFrequencyList_exact newFreq (Value y) (unlink_state c x y)
              (wf_node_ids _ Hwf1) (wf_fresh_nodes _ Hwf1)
              (wf_freqLists _ Hwf1))
    as (e & n & ns2 & fr & Hadd & Hl & He & Hn & Hnew).
  fields. simpl in Hl, He, Hnew.
  assert (eid {| eid := e; Value := Value y |}
          ∉ (λ p, eid p.2) <$> entries (unlinked (eid y) (freqNodes c))) as Hfresh.
  { intros (p & Hpe & Hin)%list_elem_of_fmap.
    apply (wf_fresh_elems _ Hwf1) in Hin. simpl in Hpe, Hin. lia. }
  pose proof (update_item_linked _ _ _ _ _ (with_frequency newFreq) Hfresh Hl)
    as Hl3. simpl in Hl3.
  exists e, n, (update_item e (with_frequency newFreq) ns2), fr.
  repeat split; [done|lia|lia|done|done|].
  pose proof (touched_wf c x y e n _ fr Hwf Hx Hy Hl3 He Hn Hnew) as Hwf3.
  unfold incrementFrequency.
  unfold bind at 1. unfold deref at 1.
  pose proof (elem_Value_member _ _ (wf_elem_ids c Hwf) Hp) as Hv.
  simpl in Hv. rewrite Hv. clear Hv.
  unfold bind at 1. rewrite Hfq.
  rewrite (removeFromFrequencyList_exact c x y Hwf Hx Hy).
  unfold bind at 1. rewrite <- Hfq. fold newFreq. rewrite Hadd.
  unfold bind at 1. unfold write at 1. unfold set_items at 1. fields.
  unfold bind at 1. unfold deref at 1. fields.
  assert ((n, newFreq, {| eid := e; Value := Value y |}) ∈ entries ns2) as Hin2
    by (rewrite (linked_entries _ _ _ _ _ Hl); by left).
  pose proof (elem_Value_member ns2 _
    (linked_elem_ids _ _ _ _ _ Hl (wf_elem_ids _ Hwf1) Hfresh) Hin2) as Hv.
  simpl in Hv. rewrite Hv. clear Hv.
  unfold bind at 1. unfold write at 1. unfold set_freqNodes at 1. fields.
  unfold bind at 1. unfold read at 1. fields.
  change (λ i : CacheItem,
            {| key := key i; value := value i; frequency := newFreq |})
    with (with_frequency newFreq).
  change (Build_LFUCache _ _ _ _ _ _)
    with (touched_state c x y e n (update_item e (with_frequency newFreq) ns2) fr).
  change (minFreq (unlink_state c x y)) with (minFreq c).
  destruct (frequency (Value y) =? minFreq c) eqn:Hmin; [|done].
  set (c3 := touched_state c x y e n
               (update_item e (with_frequency newFreq) ns2) fr) in *.
  unfold bind at 1. rewrite getFrequencyList_eq.
  destruct (decide (list_Remove (eid y) (elements (node x)) = [])) as [Hd|Hd].
  - assert (freqLists c3 !! frequency (Value y) = None) as ->.
    { unfold c3, touched_state, unlink_state. fields. fold newFreq.
      rewrite lookup_insert_ne by apply add64_neq.
      rewrite decide_True by done. rewrite Hfq. apply lookup_delete_eq. }
    by rewrite bool_decide_eq_true_2 by done.
  - assert (freqLists c3 !! frequency (Value y) = Some (nid x)) as ->.
    { unfold c3, touched_state, unlink_state. fields. fold newFreq.
      rewrite lookup_insert_ne by apply add64_neq.
      rewrite decide_False by done. rewrite Hfq.
      by apply wf_freqLists_member. }
    set (x' := {| nid := nid x;
                  node := {| freq := freq (node x);
                             elements := list_Remove (eid y)
                                           (elements (node x)) |} |}).
    assert (x' ∈ freqNodes c3) as Hx'.
    { apply (linked_other _ _ _ _ _ _ Hl3).
      - pose proof Hwf as [Hnd Hed _ _ _ _ Hne _].
        apply (elem_of_unlinked _ x y Hnd Hed Hne Hx Hy). by right.
      - simpl. rewrite <- Hfq. apply not_eq_sym, add64_neq. }
    pose proof (node_Value_member _ x' (wf_node_ids _ Hwf3) Hx') as Hv.
    change (nid x') with (nid x) in Hv. rewrite Hv. simpl.
    rewrite Len_zero, !bool_decide_eq_false_2 by done. done.
Qed.

Lemma incrementFrequency_spec c x y :
  wf c → x ∈ freqNodes c → y ∈ elements (node x) →
  ∃ c3, touch_of c x y c3
    ∧ incrementFrequency (eid y) c
      = if touch_panics c x y then Panicked nil_dereference c3
        else Done () c3.
Proof.
  intros Hwf Hx Hy.
  destruct (incrementFrequency_exact c x y Hwf Hx Hy)
    as (e & n & ns & fr & Hl & He & Hn & Hnew & Heq).
  exists (touched_state c x y e n ns fr). split; [|done].
  by exists e, n, ns, fr.
Qed.

Lemma touch_wf c x y c3 :
  wf c → x ∈ freqNodes c → y ∈ elements (node x) → touch_of c x y c3 → wf c3.
Proof.
  intros Hwf Hx Hy (e & n & ns & fr & Hl & He & Hn & Hnew & ->).
  by apply touched_wf.
Qed.

Lemma touch_capacity c x y c3 : touch_of c x y c3 → capacity c3 = capacity c.
Proof. by intros (e & n & ns & fr & _ & _ & _ & _ & ->). Qed.

Lemma touch_minFreq c x y c3 : touch_of c x y c3 → minFreq c3 = minFreq c.
Proof. by intros (e & n & ns & fr & _ & _ & _ & _ & ->). Qed.


(** The new element of a touched item: it is the last element of the node of
    the next frequency, and it holds the item with the next frequency. *)
Lemma touch_entry c x y c3 :
  wf c → x ∈ freqNodes c → y ∈ elements (node x) → key (Value y) ≠ NaN →
  touch_of c x y c3 →
  ∃ x3 y3,
    x3 ∈ freqNodes c3
    ∧ freq (node x3) = add64 (frequency (Value y)) 1
    ∧ last (elements (node x3)) = Some y3
    ∧ Value y3 = with_frequency (add64 (frequency (Value y)) 1) (Value y)
    ∧ items c3 !! key (Value y) = Some (eid y3).
Proof.
  intros Hwf Hx Hy Hnan (e & n & ns & fr & Hl & He & Hn & Hnew & ->).
  unfold touched_state. fields. rewrite gomap_lookup_insert_eq by done.
  inversion Hl as [a x' b Hns Hf Hnid|n' a b Hns Hf Ha Hb]; subst.
  - eexists _, _. split; [apply elem_of_app; right; by left|].
    simpl. by rewrite last_snoc.
  - eexists _, _. split; [apply elem_of_app; right; by left|].
    simpl. done.
Qed.

Lemma update_item_written e g ns :
  update_item e g ns = written_node e g <$> ns.
Proof. reflexivity. Qed.

Lemma entries_update_item e g ns :
  entries (update_item e g ns)
  = (λ p, (p.1, written e g p.2)) <$> entries ns.
Proof.
  rewrite update_item_written.
  induction ns as [|x ns IH]; [done|].
  rewrite fmap_cons, !entries_cons, fmap_app, IH. f_equal.
  simpl. rewrite <- !list_fmap_compose. done.
Qed.

Lemma eid_written e g y : eid (written e g y) = eid y.
Proof. unfold written. by destruct (decide (eid y = e)). Qed.

Lemma shape_update_item e g ns : shape (update_item e g ns) = shape ns.
Proof.
  rewrite update_item_written. unfold shape.
  by rewrite <- list_fmap_compose.
Qed.

Lemma elem_of_update_item e g ns z :
  z ∈ update_item e g ns ↔ ∃ x, x ∈ ns ∧ z = written_node e g x.
Proof.
  rewrite update_item_written, list_elem_of_fmap.
  split; intros (x & Ha & Hb); by exists x.
Qed.

Lemma update_item_wf c e g :
  (∀ i, key (g i) = key i) → (∀ i, frequency (g i) = frequency i) →
  wf c → wf (set_freqNodes (update_item e g) c).
Proof.
  intros Hk Hf [Hnd Hed Hfn Hfe Hitems Hfl Hne Hfq].
  assert (∀ y, key (Value (written e g y)) = key (Value y)) as Hk'.
  { intros y. unfold written. destruct (decide (eid y = e)); [apply Hk|done]. }
  assert (∀ y, frequency (Value (written e g y)) = frequency (Value y)) as Hf'.
  { intros y. unfold written. destruct (decide (eid y = e)); [apply Hf|done]. }
  assert ((λ p : nat * Z * Element, eid p.2)
            <$> entries (update_item e g (freqNodes c))
          = (λ p, eid p.2) <$> entries (freqNodes c)) as Hids.
  { rewrite entries_update_item, <- list_fmap_compose.
    apply list_fmap_ext. intros i p _. simpl. apply eid_written. }
  split; unfold set_freqNodes; fields.
  - by rewrite <- shape_nid, shape_update_item, shape_nid.
  - by rewrite Hids.
  - intros z (x & Hx & ->)%elem_of_update_item. simpl. auto.
  - intros p. rewrite entries_update_item.
    intros (p0 & -> & Hp0)%list_elem_of_fmap. simpl.
    rewrite eid_written. auto.
  - intros k e'. rewrite Hitems, entries_update_item. split.
    + intros (p & Hp & <- & <- & Hnan). exists (p.1, written e g p.2).
      split; [apply list_elem_of_fmap; by exists p|].
      simpl. by rewrite eid_written, Hk'.
    + intros (p' & (p & -> & Hp)%list_elem_of_fmap & <- & <- & Hnan).
      exists p. simpl in *. by rewrite eid_written, Hk' in *.
  - intros f n. by rewrite Hfl, <- !elem_of_shape, shape_update_item.
  - intros z (x & Hx & ->)%elem_of_update_item. simpl.
    specialize (Hne x Hx). by destruct (elements (node x)).
  - intros p. rewrite entries_update_item.
    intros (p0 & -> & Hp0)%list_elem_of_fmap. simpl.
    rewrite Hf'. auto.
Qed.

Lemma revalued_wf c v y : wf c → wf (revalued v y c).
Proof. intros Hwf. by apply update_item_wf. Qed.

Lemma revalued_member c v x y :
  x ∈ freqNodes c → y ∈ elements (node x) →
  written_node (eid y) (with_value v) x ∈ freqNodes (revalued v y c)
  ∧ {| eid := eid y; Value := with_value v (Value y) |}
      ∈ elements (node (written_node (eid y) (with_value v) x)).
Proof.
  intros Hx Hy. split.
  - unfold revalued, set_freqNodes. fields.
    apply elem_of_update_item. by exists x.
  - simpl. apply list_elem_of_fmap. exists y. split; [|done].
    unfold written. by rewrite decide_True.
Qed.

Lemma wf_items_lookup c k e :
  wf c → items c !! k = Some e →
  ∃ x y, x ∈ freqNodes c ∧ y ∈ elements (node x)
         ∧ eid y = e ∧ key (Value y) = k.
Proof.
  intros Hwf Hk.
  apply (wf_items c Hwf) in Hk as ([[n f] y] & Hp & He & Hkey & _).
  apply elem_of_entries in Hp as (x & Hx & _ & _ & Hy). by exists x, y.
Qed.

Lemma Get_miss c k : items c !! k = None → Get k c = Done (Nil, false) c.
Proof. intros Hk. unfold Get, bind, read. by rewrite Hk. Qed.

Lemma Get_hit c x y :
  wf c → x ∈ freqNodes c → y ∈ elements (node x) → key (Value y) ≠ NaN →
  ∃ c3, touch_of c x y c3
    ∧ Get (key (Value y)) c
      = if touch_panics c x y then Panicked nil_dereference c3
        else Done (value (Value y), true) c3.
Proof.
  intros Hwf Hx Hy Hnan.
  destruct (incrementFrequency_spec c x y Hwf Hx Hy) as (c3 & Ht & Hinc).
  exists c3. split; [done|].
  unfold Get. unfold bind at 1. unfold read at 1.
  rewrite (wf_items_member c x y Hwf Hx Hy Hnan).
  unfold bind at 1. rewrite Hinc.
  destruct (touch_panics c x y); [done|].
  destruct (touch_entry c x y c3 Hwf Hx Hy Hnan Ht)
    as (x3 & y3 & Hx3 & Hf3 & Hlast & Hv3 & Hk3).
  pose proof (touch_wf c x y c3 Hwf Hx Hy Ht) as Hwf3.
  unfold bind, deref, ret. rewrite Hk3. simpl.
  pose proof (elem_Value_member _ (nid x3, freq (node x3), y3)
                (wf_elem_ids _ Hwf3)) as Hv.
  simpl in Hv. rewrite Hv, Hv3; [done|].
  apply elem_of_entries. exists x3. repeat split; [done|].
  by apply last_Some_elem_of.
Qed.

Lemma evict_exact c : wf c → evict c = Done () (evicted c).
Proof.
  intros Hwf. pose proof Hwf as [Hnd Hed _ _ _ _ Hne _].
  unfold evict, evicted, bind, read. fields.
  destruct (freqNodes c) as [|x ns] eqn:Hns; [done|].
  destruct (elements (node x)) as [|y ys] eqn:Hel; [done|].
  assert (x ∈ freqNodes c) as Hx by (rewrite Hns; by left).
  assert (y ∈ elements (node x)) as Hy by (rewrite Hel; by left).
  unfold write, set_freqNodes, set_items, set_freqLists, ret, unlink_state.
  fields. rewrite Len_zero, <- Hel, Hns.
  rewrite <- Hns in *.
  rewrite (update_elements_Remove _ x y Hed Hx Hy).
  destruct (decide (list_Remove (eid y) (elements (node x)) = [])) as [Hd|Hd].
  - rewrite bool_decide_eq_true_2 by done. fields.
    by rewrite (unlinked_emptied _ x y Hnd Hed Hne Hx Hy Hd).
  - rewrite bool_decide_eq_false_2 by done.
    by rewrite (unlinked_kept _ x y Hnd Hed Hne Hx Hy Hd).
Qed.

Lemma evicted_wf c : wf c → wf (evicted c).
Proof.
  intros Hwf. unfold evicted.
  destruct (freqNodes c) as [|x ns] eqn:Hns; [done|].
  destruct (elements (node x)) as [|y ys] eqn:Hel; [done|].
  apply unlink_wf; [done|rewrite Hns; by left|rewrite Hel; by left].
Qed.

Lemma wf_size_pos c :
  wf c → (freqNodes c = [] → Size c = 0) → 0 < Size c →
  ∃ x ns y ys, freqNodes c = x :: ns ∧ elements (node x) = y :: ys.
Proof.
  intros Hwf Hg Hpos.
  destruct (freqNodes c) as [|x ns] eqn:Hns.
  - specialize (Hg eq_refl). lia.
  - assert (elements (node x) ≠ []) as Hne
      by (apply (wf_nonempty c Hwf); rewrite Hns; by left).
    destruct (elements (node x)) as [|y ys] eqn:Hel; [done|].
    by exists x, ns, y, ys.
Qed.



Lemma Put_existing c v x y :
  wf c → capacity c ≠ 0 → x ∈ freqNodes c → y ∈ elements (node x) →
  key (Value y) ≠ NaN →
  ∃ c3,
    touch_of (revalued v y c) (written_node (eid y) (with_value v) x)
      {| eid := eid y; Value := with_value v (Value y) |} c3
    ∧ Put (key (Value y)) v c
      = if touch_panics (revalued v y c)
             (written_node (eid y) (with_value v) x)
             {| eid := eid y; Value := with_value v (Value y) |}
        then Panicked nil_dereference c3
        else Done () c3.
Proof.
  intros Hwf Hcap Hx Hy Hnan.
  destruct (revalued_member c v x y Hx Hy) as [Hx' Hy'].
  destruct (incrementFrequency_spec _ _ _ (revalued_wf c v y Hwf) Hx' Hy')
    as (c3 & Ht & Hinc).
  exists c3. split; [done|].
  unfold Put. unfold bind at 1. unfold read at 1.
  rewrite (proj2 (Z.eqb_neq _ _) Hcap).
  unfold bind at 1. unfold read at 1.
  rewrite (wf_items_member c x y Hwf Hx Hy Hnan).
  unfold bind at 1. unfold deref at 1.
  pose proof (elem_Value_member _ _ (wf_elem_ids c Hwf)
                (wf_entry c x y Hwf Hx Hy)) as Hv.
  simpl in Hv. rewrite Hv.
  unfold bind at 1. unfold write at 1.
  exact Hinc.
Qed.

Lemma Put_new c k v :
  wf c → capacity c ≠ 0 → items c !! k = None →
  ∃ c2, insert_of (made_room c) k v c2 ∧ Put k v c = Done () c2.
Proof.
  intros Hwf Hcap Hk.
  assert (wf (made_room c)) as Hwf1.
  { unfold made_room. destruct (capacity c <=? Size c); [|done].
    by apply evicted_wf. }
  assert (capacity (made_room c) = capacity c) as Hcap1.
  { unfold made_room, evicted. destruct (capacity c <=? Size c); [|done].
    destruct (freqNodes c) as [|x ns]; [done|].
    by destruct (elements (node x)). }
  destruct (addToFrequencyList_exact 1
              {| key := k; value := v; frequency := 1 |} (made_room c)
              (wf_node_ids _ Hwf1) (wf_fresh_nodes _ Hwf1)
              (wf_freqLists _ Hwf1))
    as (e & n & ns & fr & Hadd & Hl & He & Hn & Hnew).
  eexists. split; [by exists e, n, ns, fr|].
  unfold Put. unfold bind at 1. unfold read at 1.
  rewrite (proj2 (Z.eqb_neq _ _) Hcap).
  unfold bind at 1. unfold read at 1. rewrite Hk.
  unfold bind at 1. unfold read at 1.
  unfold bind at 1.
  assert ((if capacity c <=? Z.of_nat (size (items c)) then evict else ret ()) c
          = Done () (made_room c)) as ->.
  { unfold made_room, Size. destruct (capacity c <=? Z.of_nat (size (items c))).
    - by apply evict_exact.
    - done. }
  unfold bind at 1. rewrite Hadd.
  unfold bind, write, set_items, set_minFreq. fields.
  by rewrite Hcap1.
Qed.

Lemma made_room_wf c : wf c → wf (made_room c).
Proof.
  intros Hwf. unfold made_room. destruct (capacity c <=? Size c); [|done].
  by apply evicted_wf.
Qed.

Lemma made_room_capacity c : capacity (made_room c) = capacity c.
Proof.
  unfold made_room, evicted. destruct (capacity c <=? Size c); [|done].
  destruct (freqNodes c) as [|x ns]; [done|].
  by destruct (elements (node x)).
Qed.

Lemma made_room_absent c k :
  items c !! k = None → items (made_room c) !! k = None.
Proof.
  intros Hk. unfold made_room, evicted.
  destruct (capacity c <=? Size c); [|done].
  destruct (freqNodes c) as [|x ns]; [done|].
  destruct (elements (node x)) as [|y ys]; [done|].
  unfold set_items, unlink_state. fields.
  apply gomap_lookup_delete_None. by right.
Qed.


Lemma insert_wf c1 k v c2 :
  wf c1 → items c1 !! k = None → insert_of c1 k v c2 → wf c2.
Proof.
  intros Hwf Hk (e & n & ns & fr & Hl & He & Hn & Hnew & ->).
  by apply (linked_wf c1 1 _ n ns fr 1 Hwf Hl).
Qed.


Lemma insert_capacity c1 k v c2 :
  insert_of c1 k v c2 → capacity c2 = capacity c1.
Proof. by intros (e & n & ns & fr & _ & _ & _ & _ & ->). Qed.

Lemma step_cases c o :
  wf c → capacity c ≠ 0 →
  call o c ≠ Dangling ∧ step_spec c o (step c o).
Proof.
  intros Hwf Hcap. destruct o as [k v|k|]; unfold step, step_spec, call.
  - destruct (items c !! k) as [e|] eqn:Hk.
    + pose proof (gomap_lookup_Some_ne _ _ _ Hk) as Hnan.
      destruct (wf_items_lookup c k e Hwf Hk) as (x & y & Hx & Hy & <- & <-).
      destruct (Put_existing c v x y Hwf Hcap Hx Hy Hnan) as (c3 & Ht & ->).
      split; [by destruct (touch_panics _ _ _)|].
      exists x, y. repeat split; try done.
      by destruct (touch_panics _ _ _).
    + destruct (Put_new c k v Hwf Hcap Hk) as (c2 & Hi & ->). done.
  - destruct (items c !! k) as [e|] eqn:Hk.
    + pose proof (gomap_lookup_Some_ne _ _ _ Hk) as Hnan.
      destruct (wf_items_lookup c k e Hwf Hk) as (x & y & Hx & Hy & <- & <-).
      destruct (Get_hit c x y Hwf Hx Hy Hnan) as (c3 & Ht & Hget).
      unfold bind. rewrite Hget.
      split; [by destruct (touch_panics _ _ _)|].
      exists x, y. repeat split; try done.
      by destruct (touch_panics _ _ _).
    + unfold bind. by rewrite (Get_miss c k Hk).
  - done.
Qed.

Lemma Clear_wf c : wf (Clear c).
Proof.
  split; unfold Clear; fields.
  - constructor.
  - constructor.
  - by intros x ?%elem_of_nil.
  - by intros p ?%elem_of_nil.
  - intros k e. rewrite gomap_lookup_empty. split; [done|].
    by intros (p & ?%elem_of_nil & _).
  - intros f n. rewrite lookup_empty. split; [done|].
    by intros (p & ?%elem_of_nil & _).
  - by intros x ?%elem_of_nil.
  - by intros p ?%elem_of_nil.
Qed.

Lemma revalued_size c v y : Size (revalued v y c) = Size c.
Proof. reflexivity. Qed.

Lemma linked_not_nil f el ns n ns2 : linked f el ns n ns2 → ns2 ≠ [].
Proof. intros [a x b _ _|n' a b _ _ _ _]; by destruct a. Qed.

Lemma touch_grounded c x y c3 :
  0 < capacity c → touch_of c x y c3 → grounded c3.
Proof.
  intros Hpos (e & n & ns & fr & Hl & _ & _ & _ & ->).
  split; [done|]. unfold touched_state. fields. intros Hnil.
  by destruct (linked_not_nil _ _ _ _ _ Hl).
Qed.

Lemma insert_grounded c1 k v c2 :
  0 < capacity c1 → insert_of c1 k v c2 → grounded c2.
Proof.
  intros Hpos (e & n & ns & fr & Hl & _ & _ & _ & ->).
  split; [done|]. fields. intros Hnil.
  by destruct (linked_not_nil _ _ _ _ _ Hl).
Qed.

Lemma step_wf c o : wf c → capacity c ≠ 0 → wf (step c o).
Proof.
  intros Hwf Hcap. destruct (step_cases c o Hwf Hcap) as [_ Hs].
  revert Hs. generalize (step c o). intros c' Hs.
  destruct o as [k v|k|]; unfold step_spec in Hs.
  - destruct (items c !! k) as [e|] eqn:Hk.
    + destruct Hs as (x & y & Hx & Hy & <- & Ht).
      destruct (revalued_member c v x y Hx Hy) as [Hx' Hy'].
      by apply (touch_wf _ _ _ _ (revalued_wf c v y Hwf) Hx' Hy' Ht).
    + apply (insert_wf _ _ _ _ (made_room_wf c Hwf)
               (made_room_absent c k Hk) Hs).
  - destruct (items c !! k) as [e|] eqn:Hk; [|by subst].
    destruct Hs as (x & y & Hx & Hy & <- & Ht).
    by apply (touch_wf _ _ _ _ Hwf Hx Hy Ht).
  - subst. apply Clear_wf.
Qed.

Lemma step_spec_inv c o c' :
  wf c → grounded c → step_spec c o c' →
  wf c' ∧ grounded c' ∧ capacity c' = capacity c.
Proof.
  intros Hwf [Hpos Hg] Hs.
  destruct o as [k v|k|]; unfold step_spec in Hs.
  - destruct (items c !! k) as [e|] eqn:Hk.
    + destruct Hs as (x & y & Hx & Hy & <- & Ht).
      destruct (revalued_member c v x y Hx Hy) as [Hx' Hy'].
      pose proof (revalued_wf c v y Hwf) as Hwf'.
      split; [by apply (touch_wf _ _ _ _ Hwf' Hx' Hy' Ht)|].
      split; [by apply (touch_grounded (revalued v y c) _ _ _ Hpos Ht)|].
      by rewrite (touch_capacity _ _ _ _ Ht).
    + split; [|split].
      * apply (insert_wf _ _ _ _ (made_room_wf c Hwf)
                 (made_room_absent c k Hk) Hs).
      * apply (insert_grounded _ _ _ _ ltac:(by rewrite made_room_capacity) Hs).
      * by rewrite (insert_capacity _ _ _ _ Hs), made_room_capacity.
  - destruct (items c !! k) as [e|] eqn:Hk; [|by subst].
    destruct Hs as (x & y & Hx & Hy & <- & Ht).
    split; [by apply (touch_wf _ _ _ _ Hwf Hx Hy Ht)|].
    split; [by apply (touch_grounded _ _ _ _ Hpos Ht)|].
    by rewrite (touch_capacity _ _ _ _ Ht).
  - subst. split; [apply Clear_wf|]. done.
Qed.

Lemma step_inv c o :
  wf c → grounded c →
  call o c ≠ Dangling ∧ wf (step c o) ∧ grounded (step c o)
  ∧ capacity (step c o) = capacity c.
Proof.
  intros Hwf Hb. assert (capacity c ≠ 0) as Hcap by (destruct Hb; lia).
  destruct (step_cases c o Hwf Hcap) as [Hd Hs]. split; [done|].
  by apply (step_spec_inv c o).
Qed.

Lemma run_inv ops : ∀ c,
  wf c → grounded c →
  wf (run c ops) ∧ grounded (run c ops) ∧ capacity (run c ops) = capacity c.
Proof.
  unfold run. induction ops as [|o ops IH]; intros c Hwf Hb; [done|].
  simpl. destruct (step_inv c o Hwf Hb) as (_ & Hwf' & Hb' & Hcap).
  rewrite <- Hcap. by apply IH.
Qed.

Lemma empty_inv n : 0 < n → wf (empty n) ∧ grounded (empty n).
Proof.
  intros Hn. repeat split; unfold Size, empty; fields;
    try (constructor || done || by intros ? ?%elem_of_nil).
  - by rewrite gomap_lookup_empty.
  - by intros (p & ?%elem_of_nil & _).
  - by intros (p & ?%elem_of_nil & _).
Qed.


Lemma StronglySorted_sublist {T : Type} (R : relation T) (l1 l2 : list T) :
  l1 `sublist_of` l2 → StronglySorted R l2 → StronglySorted R l1.
Proof.
  induction 1 as [|x l1 l2 Hsub IH|x l1 l2 Hsub IH]; intros Hs; [done|..].
  - apply StronglySorted_cons in Hs as [Hall Hs].
    apply StronglySorted_cons. split; [|by apply IH].
    apply Forall_forall. intros z Hz. rewrite Forall_forall in Hall.
    apply Hall. by eapply elem_of_sublist.
  - apply StronglySorted_cons in Hs as [_ Hs]. by apply IH.
Qed.

Lemma freq_map_elements g ns :
  (λ x, freq (node x)) <$> map_elements g ns = (λ x, freq (node x)) <$> ns.
Proof. unfold map_elements. by rewrite <- list_fmap_compose. Qed.

Lemma unlinked_sorted e ns : sorted ns → sorted (unlinked e ns).
Proof.
  unfold sorted, unlinked. apply StronglySorted_sublist.
  rewrite <- (freq_map_elements (list_Remove e) ns).
  apply fmap_sublist, sublist_filter.
Qed.

Lemma linked_sorted f el ns n ns2 :
  linked f el ns n ns2 → sorted ns → sorted ns2.
Proof.
  unfold sorted. intros [a x b -> <-|n' a b -> Hf Ha Hb].
  - by rewrite !fmap_app, !fmap_cons.
  - rewrite !fmap_app, fmap_cons. simpl.
    rewrite !StronglySorted_app. intros (Hab & Hsa & Hsb).
    assert (Forall (Z.lt f) ((λ x, freq (node x)) <$> b)) as Hfb.
    { destruct b as [|z b]; [constructor|].
      specialize (Hb z eq_refl). rewrite fmap_cons in Hsb |- *.
      apply StronglySorted_cons in Hsb as [Hz _].
      constructor; [done|]. eapply Forall_impl; [exact Hz|].
      simpl. intros; lia. }
    repeat split; [|done|by apply StronglySorted_cons].
    intros x1 x2 (z1 & -> & Hz1)%list_elem_of_fmap [->|Hx2]%elem_of_cons.
    + rewrite Forall_forall in Ha. by apply Ha.
    + apply Hab; [|done]. apply list_elem_of_fmap. by exists z1.
Qed.

Lemma update_item_sorted e g ns : sorted ns → sorted (update_item e g ns).
Proof. unfold sorted. by rewrite <- !shape_freq, shape_update_item. Qed.

Lemma unlinked_recency T e ns : recency T ns → recency T (unlinked e ns).
Proof.
  unfold recency. rewrite !Forall_forall. intros H z. unfold unlinked.
  intros [_ (x & Hx & _ & _ & ->)%elem_of_map_elements]%list_elem_of_filter.
  unfold by_recency, list_Remove.
  eapply StronglySorted_sublist; [apply sublist_filter|]. by apply H.
Qed.

Lemma linked_recency T f el ns n ns2 :
  linked f el ns n ns2 →
  (∀ p, p ∈ entries ns → key (Value p.2) ≠ NaN → key (Value el) ≠ NaN →
        (T (key (Value p.2)) < T (key (Value el)))%nat) →
  recency T ns → recency T ns2.
Proof.
  unfold recency. intros [a x b -> <-|n' a b -> _ _ _] Hlt.
  - rewrite !Forall_app, !Forall_cons. simpl.
    intros (Ha & Hx & Hb). repeat split; try done.
    unfold by_recency in *. apply StronglySorted_app.
    repeat split; [|done|repeat constructor].
    intros y1 y2 Hy1 ->%list_elem_of_singleton.
    apply (Hlt (nid x, freq (node x), y1)). apply elem_of_entries.
    exists x. repeat split; [|done]. apply elem_of_app. right. by left.
  - rewrite !Forall_app, !Forall_cons. simpl.
    intros (Ha & Hb). repeat split; try done.
    unfold by_recency. repeat constructor.
Qed.

Lemma update_item_recency T e g ns :
  (∀ i, key (g i) = key i) →
  recency T ns → recency T (update_item e g ns).
Proof.
  intros Hk. unfold recency. rewrite !Forall_forall.
  intros H z (x & Hx & ->)%elem_of_update_item. simpl.
  unfold by_recency. eapply StronglySorted_fmap; [|by apply H].
  intros y1 y2. unfold written.
  destruct (decide (eid y1 = e)), (decide (eid y2 = e)); simpl;
    by rewrite ?Hk.
Qed.

Lemma recency_ext T T' ns :
  (∀ p, p ∈ entries ns → key (Value p.2) ≠ NaN →
        T' (key (Value p.2)) = T (key (Value p.2))) →
  recency T ns → recency T' ns.
Proof.
  intros Hext. unfold recency. rewrite !Forall_forall. intros H x Hx.
  specialize (H x Hx).
  assert (∀ y, y ∈ elements (node x) → key (Value y) ≠ NaN →
               T' (key (Value y)) = T (key (Value y))) as Hy.
  { intros y Hy. apply (Hext (nid x, freq (node x), y)).
    apply elem_of_entries. by exists x. }
  unfold by_recency in *.
  induction H as [|y l Hs IH Hall]; [constructor|].
  constructor.
  - apply IH. intros z Hz. apply Hy. by right.
  - rewrite Forall_forall in Hall |- *. intros z Hz Hn1 Hn2.
    rewrite !Hy by (by left || by right || done). by apply Hall.
Qed.

Lemma last_use_snoc k ops o :
  last_use k (ops ++ [o])
  = if names o k then S (length ops) else last_use k ops.
Proof.
  unfold last_use. rewrite rev_unit. simpl. by rewrite length_rev.
Qed.

Lemma recent_le k rops : (recent k rops ≤ length rops)%nat.
Proof.
  induction rops as [|o rops IH]; simpl; [lia|].
  destruct (names o k); lia.
Qed.

Lemma last_use_le k ops : (last_use k ops ≤ length ops)%nat.
Proof. unfold last_use. rewrite <- (length_rev ops). apply recent_le. Qed.

Lemma unlinked_key_ne c x y p :
  wf c → x ∈ freqNodes c → y ∈ elements (node x) → key (Value y) ≠ NaN →
  p ∈ entries (unlinked (eid y) (freqNodes c)) →
  key (Value p.2) ≠ key (Value y).
Proof.
  intros Hwf Hx Hy Hnan Hp Heq.
  pose proof (unlink_wf c x y Hwf Hx Hy) as Hwf1.
  assert (items (set_items (delete (key (Value y))) (unlink_state c x y))
            !! key (Value p.2) = Some (eid p.2)) as Hs.
  { apply (wf_items _ Hwf1). exists p. by rewrite Heq. }
  unfold set_items, unlink_state in Hs. revert Hs. fields.
  by rewrite Heq, gomap_lookup_delete_eq.
Qed.

Lemma touch_order c x y c3 (t : nat) T T' :
  wf c → x ∈ freqNodes c → y ∈ elements (node x) → key (Value y) ≠ NaN →
  touch_of c x y c3 →
  sorted (freqNodes c) → recency T (freqNodes c) →
  (∀ k, (T k ≤ t)%nat) →
  T' (key (Value y)) = S t →
  (∀ k, k ≠ key (Value y) → T' k = T k) →
  sorted (freqNodes c3) ∧ recency T' (freqNodes c3).
Proof.
  intros Hwf Hx Hy Hnan (e & n & ns & fr & Hl & _ & _ & _ & ->) Hs Hr
    HT HT'k HT'.
  unfold touched_state. fields. split.
  - apply (linked_sorted _ _ _ _ _ Hl). by apply unlinked_sorted.
  - apply (linked_recency _ _ _ _ _ _ Hl).
    + intros p Hp _ _. simpl.
      rewrite HT' by (by apply (unlinked_key_ne c x y)).
      rewrite HT'k. specialize (HT (key (Value p.2))). lia.
    + apply (recency_ext T); [|by apply unlinked_recency].
      intros p Hp _. apply HT'. by apply (unlinked_key_ne c x y).
Qed.

Lemma revalued_order c v y T :
  sorted (freqNodes c) → recency T (freqNodes c) →
  sorted (freqNodes (revalued v y c)) ∧ recency T (freqNodes (revalued v y c)).
Proof.
  intros Hs Hr. unfold revalued, set_freqNodes. fields. split.
  - by apply update_item_sorted.
  - by apply update_item_recency.
Qed.

Lemma evicted_order c T :
  sorted (freqNodes c) → recency T (freqNodes c) →
  sorted (freqNodes (evicted c)) ∧ recency T (freqNodes (evicted c)).
Proof.
  intros Hs Hr. unfold evicted.
  destruct (freqNodes c) as [|x ns] eqn:Hns; [by rewrite Hns|].
  destruct (elements (node x)) as [|y ys]; [by rewrite Hns|].
  unfold set_items, unlink_state. fields. rewrite Hns. split.
  - by apply unlinked_sorted.
  - by apply unlinked_recency.
Qed.

Lemma made_room_order c T :
  sorted (freqNodes c) → recency T (freqNodes c) →
  sorted (freqNodes (made_room c)) ∧ recency T (freqNodes (made_room c)).
Proof.
  intros Hs Hr. unfold made_room.
  destruct (capacity c <=? Size c); [by apply evicted_order|done].
Qed.

Lemma insert_order c1 k v c2 (t : nat) T T' :
  wf c1 → items c1 !! k = None → insert_of c1 k v c2 →
  sorted (freqNodes c1) → recency T (freqNodes c1) →
  (∀ k, (T k ≤ t)%nat) →
  T' k = S t →
  (∀ k', k' ≠ k → T' k' = T k') →
  sorted (freqNodes c2) ∧ recency T' (freqNodes c2).
Proof.
  intros Hwf Hk (e & n & ns & fr & Hl & _ & _ & _ & ->) Hs Hr HT HT'k HT'.
  assert (∀ p, p ∈ entries (freqNodes c1) → key (Value p.2) ≠ NaN →
               key (Value p.2) ≠ k) as Hne.
  { intros p Hp Hnan Heq.
    assert (items c1 !! key (Value p.2) = Some (eid p.2)) as Hs'
      by (apply (wf_items _ Hwf); by exists p).
    congruence. }
  fields. split.
  - by apply (linked_sorted _ _ _ _ _ Hl).
  - apply (linked_recency _ _ _ _ _ _ Hl).
    + intros p Hp Hnan _. simpl. rewrite HT' by (by apply Hne).
      rewrite HT'k. specialize (HT (key (Value p.2))). lia.
    + apply (recency_ext T); [|done].
      intros p Hp Hnan. apply HT'. by apply Hne.
Qed.

Lemma unlinked_aged e ns : aged ns → aged (unlinked e ns).
Proof.
  unfold aged. rewrite !Forall_forall. intros H z. unfold unlinked.
  intros [_ (x & Hx & _ & _ & ->)%elem_of_map_elements]%list_elem_of_filter.
  unfold by_age, list_Remove.
  eapply StronglySorted_sublist; [apply sublist_filter|]. by apply H.
Qed.

Lemma linked_aged f el ns n ns2 :
  linked f el ns n ns2 →
  (∀ p, p ∈ entries ns → (eid p.2 < eid el)%nat) →
  aged ns → aged ns2.
Proof.
  unfold aged. intros [a x b -> <-|n' a b -> _ _ _] Hlt.
  - rewrite !Forall_app, !Forall_cons. simpl.
    intros (Ha & Hx & Hb). repeat split; try done.
    unfold by_age in *. apply StronglySorted_app.
    repeat split; [|done|repeat constructor].
    intros y1 y2 Hy1 ->%list_elem_of_singleton.
    apply (Hlt (nid x, freq (node x), y1)). apply elem_of_entries.
    exists x. repeat split; [|done]. apply elem_of_app. right. by left.
  - rewrite !Forall_app, !Forall_cons. simpl.
    intros (Ha & Hb). repeat split; try done.
    unfold by_age. repeat constructor.
Qed.

Lemma update_item_aged e g ns : aged ns → aged (update_item e g ns).
Proof.
  unfold aged. rewrite !Forall_forall.
  intros H z (x & Hx & ->)%elem_of_update_item. simpl.
  unfold by_age. eapply StronglySorted_fmap; [|by apply H].
  intros y1 y2. by rewrite !eid_written.
Qed.

Lemma touch_aged c x y c3 :
  wf c → touch_of c x y c3 → aged (freqNodes c) → aged (freqNodes c3).
Proof.
  intros Hwf (e & n & ns & fr & Hl & He & _ & _ & ->) Ha.
  unfold touched_state. fields.
  apply (linked_aged _ _ _ _ _ Hl); [|by apply unlinked_aged].
  intros p. rewrite entries_unlinked.
  intros [_ Hp%(wf_fresh_elems c Hwf)]%list_elem_of_filter. simpl. lia.
Qed.

Lemma evicted_aged c : aged (freqNodes c) → aged (freqNodes (evicted c)).
Proof.
  intros Ha. unfold evicted.
  destruct (freqNodes c) as [|x ns] eqn:Hns; [by rewrite Hns|].
  destruct (elements (node x)) as [|y ys]; [by rewrite Hns|].
  unfold set_items, unlink_state. fields. rewrite Hns.
  by apply unlinked_aged.
Qed.

Lemma insert_aged c1 k v c2 :
  wf c1 → insert_of c1 k v c2 → aged (freqNodes c1) → aged (freqNodes c2).
Proof.
  intros Hwf (e & n & ns & fr & Hl & He & _ & _ & ->) Ha. fields.
  apply (linked_aged _ _ _ _ _ Hl); [|done].
  intros p Hp%(wf_fresh_elems c1 Hwf). simpl. lia.
Qed.

Lemma step_spec_aged c o c' :
  wf c → aged (freqNodes c) → step_spec c o c' → aged (freqNodes c').
Proof.
  intros Hwf Ha Hspec. destruct o as [k v|k|]; unfold step_spec in Hspec.
  - destruct (items c !! k) as [e|] eqn:Hk.
    + destruct Hspec as (x & y & Hx & Hy & <- & Ht).
      apply (touch_aged _ _ _ _ (revalued_wf c v y Hwf) Ht).
      unfold revalued, set_freqNodes. fields. by apply update_item_aged.
    + apply (insert_aged _ _ _ _ (made_room_wf c Hwf) Hspec).
      unfold made_room. destruct (capacity c <=? Size c); [|done].
      by apply evicted_aged.
  - destruct (items c !! k) as [e|] eqn:Hk; [|by subst].
    destruct Hspec as (x & y & Hx & Hy & <- & Ht).
    by apply (touch_aged _ _ _ _ Hwf Ht).
  - subst c'. unfold Clear. fields. constructor.
Qed.

Lemma step_spec_ordered c o c' ops :
  wf c → ordered ops c →
  step_spec c o c' → ordered (ops ++ [o]) c'.
Proof.
  intros Hwf [Hs Hr Ha] Hspec.
  pose proof (step_spec_aged c o c' Hwf Ha Hspec) as Ha'.
  assert (∀ k, (last_use k ops ≤ length ops)%nat) as HT
    by (intros k; apply last_use_le).
  cut (sorted (freqNodes c')
       ∧ recency (λ k, last_use k (ops ++ [o])) (freqNodes c')).
  { intros [? ?]. by split. }
  destruct o as [k v|k|]; unfold step_spec in Hspec.
  - destruct (items c !! k) as [e|] eqn:Hk.
    + pose proof (gomap_lookup_Some_ne _ _ _ Hk) as Hnan.
      destruct Hspec as (x & y & Hx & Hy & <- & Ht).
      destruct (revalued_member c v x y Hx Hy) as [Hx' Hy'].
      destruct (revalued_order c v y _ Hs Hr) as (Hs' & Hr').
      apply (touch_order _ _ _ _ _ _ _ (revalued_wf c v y Hwf) Hx' Hy' Hnan Ht
               Hs' Hr' HT).
      * rewrite last_use_snoc. simpl. by rewrite bool_decide_eq_true_2.
      * intros k' Hk'. rewrite last_use_snoc. simpl.
        by rewrite bool_decide_eq_false_2.
    + destruct (made_room_order c _ Hs Hr) as (Hs' & Hr').
      apply (insert_order _ _ _ _ _ _ _ (made_room_wf c Hwf)
               (made_room_absent c k Hk) Hspec Hs' Hr' HT).
      * rewrite last_use_snoc. simpl. by rewrite bool_decide_eq_true_2.
      * intros k' Hk'. rewrite last_use_snoc. simpl.
        by rewrite bool_decide_eq_false_2.
  - destruct (items c !! k) as [e|] eqn:Hk.
    + pose proof (gomap_lookup_Some_ne _ _ _ Hk) as Hnan.
      destruct Hspec as (x & y & Hx & Hy & <- & Ht).
      apply (touch_order _ _ _ _ _ _ _ Hwf Hx Hy Hnan Ht Hs Hr HT).
      * rewrite last_use_snoc. simpl. by rewrite bool_decide_eq_true_2.
      * intros k' Hk'. rewrite last_use_snoc. simpl.
        by rewrite bool_decide_eq_false_2.
    + subst c'. split; [done|].
      apply (recency_ext (λ k, last_use k ops)); [|done].
      intros p Hp Hnan. rewrite last_use_snoc. simpl.
      rewrite bool_decide_eq_false_2; [done|]. intros ->.
      assert (items c !! key (Value p.2) = Some (eid p.2)) as Hs'
        by (apply (wf_items _ Hwf); by exists p).
      congruence.
  - subst c'. unfold Clear. fields. split; constructor.
Qed.

Lemma run_snoc c ops o : run c (ops ++ [o]) = step (run c ops) o.
Proof. unfold run. apply foldl_snoc. Qed.

Lemma run_ordered ops : ∀ c,
  wf c → grounded c → freqNodes c = [] → ordered ops (run c ops).
Proof.
  induction ops as [|o ops IH] using rev_ind; intros c Hwf Hb Hempty.
  - unfold run. simpl. split; rewrite Hempty; constructor.
  - rewrite run_snoc.
    destruct (run_inv ops c Hwf Hb) as (Hwf' & Hb' & Hcap).
    assert (capacity (run c ops) ≠ 0) as Hcap' by (destruct Hb'; lia).
    apply (step_spec_ordered (run c ops)); [done| |].
    + by apply IH.
    + by apply step_cases.
Qed.

Lemma linked_last f el ns n ns2 :
  linked f el ns n ns2 →
  ∃ x2, x2 ∈ ns2 ∧ nid x2 = n ∧ freq (node x2) = f
        ∧ last (elements (node x2)) = Some el.
Proof.
  intros [a x b -> <-|n' a b -> _ _ _]; eexists;
    (split; [apply elem_of_app; right; by left|]); simpl;
    repeat split; by rewrite ?last_snoc.
Qed.

(** The entry of the key after a [Put] that returned or panicked. *)
Lemma Put_entry c k v :
  wf c → capacity c ≠ 0 →
  ∃ x1 y1, x1 ∈ freqNodes (step c (OpPut k v))
    ∧ last (elements (node x1)) = Some y1
    ∧ key (Value y1) = k ∧ value (Value y1) = v.
Proof.
  intros Hwf Hcap.
  destruct (step_cases c (OpPut k v) Hwf Hcap) as [_ Hs].
  unfold step_spec in Hs. destruct (items c !! k) as [e|] eqn:Hk.
  - pose proof (gomap_lookup_Some_ne _ _ _ Hk) as Hnan.
    destruct Hs as (x & y & Hx & Hy & <- & Ht).
    destruct (revalued_member c v x y Hx Hy) as [Hx' Hy'].
    destruct (touch_entry _ _ _ _ (revalued_wf c v y Hwf) Hx' Hy' Hnan Ht)
      as (x3 & y3 & Hx3 & _ & Hlast & Hv & _).
    exists x3, y3. rewrite Hv. done.
  - destruct Hs as (e & n & ns & fr & Hl & _ & _ & _ & ->).
    destruct (linked_last _ _ _ _ _ Hl) as (x2 & Hx2 & _ & _ & Hlast).
    by exists x2, {| eid := e;
                     Value := {| key := k; value := v; frequency := 1 |} |}.
Qed.

(** The touch of the only element of the node whose frequency is [minFreq]
    dereferences the nil list. *)
Lemma Get_sole_minimum_panics c x y :
  wf c → x ∈ freqNodes c → elements (node x) = [y] →
  key (Value y) ≠ NaN →
  frequency (Value y) = minFreq c →
  ∃ c3, touch_of c x y c3
    ∧ Get (key (Value y)) c = Panicked nil_dereference c3.
Proof.
  intros Hwf Hx Hel Hnan Hmin.
  assert (y ∈ elements (node x)) as Hy by (rewrite Hel; by left).
  destruct (Get_hit c x y Hwf Hx Hy Hnan) as (c3 & Ht & Hget).
  exists c3. split; [done|]. rewrite Hget. unfold touch_panics.
  rewrite Hmin, Z.eqb_refl, Hel. unfold list_Remove.
  rewrite filter_cons, decide_False by (intros H; by apply H). done.
Qed.

Lemma sorted_front_least x ns x' :
  sorted (x :: ns) → x' ∈ x :: ns →
  x' = x ∨ (x' ∈ ns ∧ freq (node x) < freq (node x')).
Proof.
  unfold sorted. rewrite fmap_cons. intros [Hall _]%StronglySorted_cons.
  intros [->|Hx']%elem_of_cons; [by left|]. right. split; [done|].
  rewrite Forall_forall in Hall. apply Hall.
  apply list_elem_of_fmap. by exists x'.
Qed.

(** Runs that store no key that is not equal to itself: the map has the
    entries of the frequency nodes, and the cache stays within its
    capacity. *)











End LFUFacts.

(** ** The recency cache: what the methods return *)

Module LRUMethods.
Import LRU LRUFacts.

Lemma queue_Get_miss L k : items L !! k = None → Get k L = ((Str "", false), L).
Proof. intros Hk. unfold Get. by rewrite Hk. Qed.

Lemma queue_Get_hit L k e :
  wf L → items L !! k = Some e →
  Get k L = ((Value (EValue e), true),
             {| capacity := capacity L; items := items L;
                queue := e :: list_Remove e (queue L); fresh := fresh L |}).
Proof.
  intros Hwf Hk. unfold Get. rewrite Hk.
  rewrite MoveToFront_member; [done|apply (wf_ids L Hwf)|].
  by apply (wf_item_member L k).
Qed.

Lemma queue_Add_present L k v e :
  wf L → items L !! k = Some e →
  Add k v L = (false,
               {| capacity := capacity L; items := items L;
                  queue := e :: list_Remove e (queue L); fresh := fresh L |}).
Proof.
  intros Hwf Hk. unfold Add. rewrite Hk.
  rewrite MoveToFront_member; [done|apply (wf_ids L Hwf)|].
  by apply (wf_item_member L k).
Qed.

Lemma queue_Add_absent L k v :
  items L !! k = None → capacity L ≠ 0 →
  let L1 := if Len (queue L) =? capacity L then removeLastElement L else L in
  let element := {| eid := fresh L1; EValue := {| Key := k; Value := v |} |} in
  Add k v L = (true,
               {| capacity := capacity L1;
                  items := <[k := element]> (items L1);
                  queue := element :: queue L1;
                  fresh := S (fresh L1) |}).
Proof.
  intros Hk Hcap. unfold Add. rewrite Hk.
  by rewrite (proj2 (Z.eqb_neq _ _) Hcap).
Qed.

Lemma queue_Remove_absent L k : items L !! k = None → Remove k L = (false, L).
Proof. intros Hk. unfold Remove. by rewrite Hk. Qed.

Lemma queue_Remove_present L k e :
  items L !! k = Some e →
  Remove k L = (true,
                {| capacity := capacity L; items := delete k (items L);
                   queue := list_Remove e (queue L); fresh := fresh L |}).
Proof. intros Hk. unfold Remove. by rewrite Hk. Qed.

End LRUMethods.

(** ** The tests of the repository, on the model *)

Module RepositoryTests.

(** [TestLRU_Add_Overflow]: with capacity 2, the third [Add] evicts
    ["key1"]. *)
Example TestLRU_Add_Overflow :
  let L := LRU.run (LRU.empty 2)
             [LRU.OpAdd (Str "key1") (Str "value1");
              LRU.OpAdd (Str "key2") (Str "value2");
              LRU.OpAdd (Str "key3") (Str "value3")] in
  (LRU.Get (Str "key1") L).1 = (Str "", false)
  ∧ (LRU.Get (Str "key2") L).1 = (Str "value2", true)
  ∧ (LRU.Get (Str "key3") L).1 = (Str "value3", true)
  ∧ LRU.Len (LRU.queue L) = 2.
Proof. vm_compute. repeat split. Qed.

(** [TestLRU_GetThenAdd_RespectsPriority]: the [Get] of ["key1"] makes
    ["key2"] the one the third [Add] evicts. *)
Example TestLRU_GetThenAdd_RespectsPriority :
  let L := LRU.run (LRU.empty 2)
             [LRU.OpAdd (Str "key1") (Str "value1");
              LRU.OpAdd (Str "key2") (Str "value2");
              LRU.OpGet (Str "key1");
              LRU.OpAdd (Str "key3") (Str "value3")] in
  (LRU.Get (Str "key2") L).1 = (Str "", false)
  ∧ (LRU.Get (Str "key1") L).1 = (Str "value1", true).
Proof. vm_compute. repeat split. Qed.

(** [TestEvict_LFU_SameFreq_LRU]: with equal counts the entry put first is
    evicted. *)
Example TestEvict_LFU_SameFreq_LRU :
  let c := LFU.run (LFU.empty 2)
             [LFU.OpPut (Str "key1") (Str "value1");
              LFU.OpPut (Str "key2") (Str "value2");
              LFU.OpPut (Str "key3") (Str "value3")] in
  LFU.items c !! Str "key1" = None
  ∧ LFU.count (Str "key2") c = Some 1
  ∧ LFU.count (Str "key3") c = Some 1
  ∧ LFU.Size c = 2.
Proof. vm_compute. repeat split. Qed.

(** [TestFrequencyNode_Insertion]: nodes of frequency 3, 1 and 2 inserted in
    this order stand in the order 1, 2, 3. *)
Example TestFrequencyNode_Insertion :
  ∃ c, (LFU.bind (LFU.insertFrequencyNode 3
                    {| LFU.freq := 3; LFU.elements := [] |})
          (λ _, LFU.bind (LFU.insertFrequencyNode 1
                            {| LFU.freq := 1; LFU.elements := [] |})
                  (λ _, LFU.insertFrequencyNode 2
                          {| LFU.freq := 2; LFU.elements := [] |})))
         (LFU.empty 3) = LFU.Done 2%nat c
       ∧ (λ x, LFU.freq (LFU.node x)) <$> LFU.freqNodes c = [1; 2; 3].
Proof. eexists. split; vm_compute; reflexivity. Qed.

End RepositoryTests.

(** * The claims of the specification *)

(** C1, as the specification states it, fails in two ways.  On the recency
    cache a [put] of a key that is present keeps the stored value, so the
    [get] that follows [put("key1","value2")] returns ["value1"].  And in
    both caches a key that is not equal to itself is never found again: the
    [get] that follows the [put] of a NaN key is a miss. *)
Lemma C1_lru_put_keeps_old_value :
  (LRU.Get (Str "key1")
     (LRU.run (LRU.empty 2)
        [LRU.OpAdd (Str "key1") (Str "value1");
         LRU.OpAdd (Str "key1") (Str "value2")])).1
  = (Str "value1", true)
  ∧ (LRU.Get NaN
       (LRU.run (LRU.empty 2) [LRU.OpAdd NaN (Str "value1")])).1
    = (Str "", false)
  ∧ LFU.Put NaN (Str "value1") (LFU.empty 2)
    = LFU.Done () (LFU.run (LFU.empty 2) [LFU.OpPut NaN (Str "value1")])
  ∧ LFU.Get NaN (LFU.run (LFU.empty 2) [LFU.OpPut NaN (Str "value1")])
    = LFU.Done (Nil, false)
        (LFU.run (LFU.empty 2) [LFU.OpPut NaN (Str "value1")])
  ∧ LFU.Size (LFU.run (LFU.empty 2) [LFU.OpPut NaN (Str "value1")]) = 1.
Proof. repeat split; vm_compute; reflexivity. Qed.

(** C1 (amended).  For a key that is equal to itself (any key but a NaN):
    on the recency cache of capacity other than 0, [get(k)] right after
    [put(k,v)] returns [(v, true)] when [k] was absent before the [put], and
    the value stored before, with [true], when [k] was present; on the
    frequency cache of capacity other than 0, whenever [put(k,v)] and the
    [get(k)] right after it both return, the [get] returns [(v, true)].  For
    a key that is not equal to itself the [get] is a miss in both caches,
    after a [put] as in every other state. *)
Theorem C1_put_then_get :
  (∀ (L : LRU.LRU) (k v : any),
     (k ≠ NaN → LRU.capacity L ≠ 0 → LRU.items L !! k = None →
      (LRU.Get k (LRU.Add k v L).2).1 = (v, true))
     ∧ (∀ e, LRU.items L !! k = Some e →
             (LRU.Get k (LRU.Add k v L).2).1
             = (LRU.Value (LRU.EValue e), true))
     ∧ LRU.Get NaN (LRU.Add NaN v L).2
       = ((Str "", false), (LRU.Add NaN v L).2))
  ∧ (∀ (c : LFU.LFUCache) (k v : any) c1 r c2,
       LFU.wf c → LFU.capacity c ≠ 0 → k ≠ NaN →
       LFU.Put k v c = LFU.Done () c1 →
       LFU.Get k c1 = LFU.Done r c2 →
       r = (v, true))
  ∧ (∀ c : LFU.LFUCache, LFU.Get NaN c = LFU.Done (Nil, false) c).
Proof.
  split; [|split].
  - intros L k v. split; [|split].
    + intros Hnan Hcap Hk.
      rewrite (LRUMethods.queue_Add_absent L k v Hk Hcap). simpl.
      unfold LRU.Get. simpl. by rewrite gomap_lookup_insert_eq.
    + intros e Hk. unfold LRU.Add. rewrite Hk. simpl.
      unfold LRU.Get. simpl. by rewrite Hk.
    + apply LRUMethods.queue_Get_miss. unfold LRU.Add.
      rewrite gomap_lookup_NaN. by destruct (LRU.capacity L =? 0).
  - intros c k v c1 r c2 Hwf Hcap Hnan HPut HGet.
    destruct (LFUFacts.Put_entry c k v Hwf Hcap)
      as (x1 & y1 & Hx1 & Hlast & Hkey & Hval).
    pose proof (LFUFacts.step_wf c (LFU.OpPut k v) Hwf Hcap) as Hwf1.
    unfold LFU.step, LFU.call in Hx1, Hwf1. rewrite HPut in Hx1, Hwf1.
    simpl in Hx1, Hwf1.
    destruct (LFUFacts.Get_hit c1 x1 y1 Hwf1 Hx1
                (last_Some_elem_of _ _ Hlast) ltac:(by rewrite Hkey))
      as (c3 & _ & Hget).
    rewrite Hkey, HGet in Hget.
    destruct (LFU.touch_panics c1 x1 y1); [done|]. congruence.
  - intros c. by apply LFUFacts.Get_miss.
Qed.

(** C1 (amended) at a first [put] on the empty recency cache, and at a
    [put] of a present key on the frequency cache that holds two keys. *)
Lemma C1_put_then_get_witness :
  (Str "key1" ≠ NaN
   ∧ LRU.capacity (LRU.empty 2) ≠ 0
   ∧ LRU.items (LRU.empty 2) !! Str "key1" = None
   ∧ (LRU.Get (Str "key1")
        (LRU.Add (Str "key1") (Str "value1") (LRU.empty 2)).2).1
     = (Str "value1", true))
  ∧ (LFU.wf (LFU.run (LFU.empty 2)
               [LFU.OpPut (Str "key1") (Str "value1");
                LFU.OpPut (Str "key2") (Str "value2")])
     ∧ LFU.capacity (LFU.run (LFU.empty 2)
                       [LFU.OpPut (Str "key1") (Str "value1");
                        LFU.OpPut (Str "key2") (Str "value2")]) ≠ 0
     ∧ LFU.Put (Str "key1") (Str "value3")
         (LFU.run (LFU.empty 2)
            [LFU.OpPut (Str "key1") (Str "value1");
             LFU.OpPut (Str "key2") (Str "value2")])
       = LFU.Done ()
           (LFU.run (LFU.empty 2)
              [LFU.OpPut (Str "key1") (Str "value1");
               LFU.OpPut (Str "key2") (Str "value2");
               LFU.OpPut (Str "key1") (Str "value3")])
     ∧ LFU.Get (Str "key1")
         (LFU.run (LFU.empty 2)
            [LFU.OpPut (Str "key1") (Str "value1");
             LFU.OpPut (Str "key2") (Str "value2");
             LFU.OpPut (Str "key1") (Str "value3")])
       = LFU.Done (Str "value3", true)
           (LFU.run (LFU.empty 2)
              [LFU.OpPut (Str "key1") (Str "value1");
               LFU.OpPut (Str "key2") (Str "value2");
               LFU.OpPut (Str "key1") (Str "value3");
               LFU.OpGet (Str "key1")])
     ∧ (Str "value3", true) = (Str "value3", true)).
Proof.
  assert (Str "key1" ≠ NaN) as H0 by discriminate.
  assert (LRU.capacity (LRU.empty 2) ≠ 0) as H1 by (vm_compute; discriminate).
  assert (LRU.items (LRU.empty 2) !! Str "key1" = None) as H2 by reflexivity.
  destruct (LFUFacts.empty_inv 2 ltac:(lia)) as [Hwf0 Hb0].
  destruct (LFUFacts.run_inv
              [LFU.OpPut (Str "key1") (Str "value1");
               LFU.OpPut (Str "key2") (Str "value2")]
              (LFU.empty 2) Hwf0 Hb0) as (Hwf & _ & _).
  assert (LFU.capacity (LFU.run (LFU.empty 2)
                          [LFU.OpPut (Str "key1") (Str "value1");
                           LFU.OpPut (Str "key2") (Str "value2")]) ≠ 0) as Hc
    by (vm_compute; discriminate).
  assert (LFU.Put (Str "key1") (Str "value3")
            (LFU.run (LFU.empty 2)
               [LFU.OpPut (Str "key1") (Str "value1");
                LFU.OpPut (Str "key2") (Str "value2")])
          = LFU.Done ()
              (LFU.run (LFU.empty 2)
                 [LFU.OpPut (Str "key1") (Str "value1");
                  LFU.OpPut (Str "key2") (Str "value2");
                  LFU.OpPut (Str "key1") (Str "value3")])) as H3
    by (vm_compute; reflexivity).
  assert (LFU.Get (Str "key1")
            (LFU.run (LFU.empty 2)
               [LFU.OpPut (Str "key1") (Str "value1");
                LFU.OpPut (Str "key2") (Str "value2");
                LFU.OpPut (Str "key1") (Str "value3")])
          = LFU.Done (Str "value3", true)
              (LFU.run (LFU.empty 2)
                 [LFU.OpPut (Str "key1") (Str "value1");
                  LFU.OpPut (Str "key2") (Str "value2");
                  LFU.OpPut (Str "key1") (Str "value3");
                  LFU.OpGet (Str "key1")])) as H4
    by (vm_compute; reflexivity).
  split.
  - split; [exact H0|]. split; [exact H1|]. split; [exact H2|].
    exact (proj1 (proj1 C1_put_then_get (LRU.empty 2) (Str "key1")
                    (Str "value1")) H0 H1 H2).
  - split; [exact Hwf|]. split; [exact Hc|]. split; [exact H3|].
    split; [exact H4|].
    exact (proj1 (proj2 C1_put_then_get) _ _ _ _ _ _ Hwf Hc H0 H3 H4).
Defined.

(** C2.  The touch that empties the frequency node of [minFreq] does not
    complete: after [Put("key1","value1")] on a new cache of capacity 2,
    [Get("key1")] moves the entry to the node of frequency 2, finds no list
    for frequency 1 any more, and panics on the nil list; [minFreq], which
    the claim sets to 2, is still 1. *)
Theorem C2_touch_of_sole_minimum_panics :
  ∃ c1 x3 y3,
    LFU.Put (Str "key1") (Str "value1") (LFU.empty 2) = LFU.Done () c1
    ∧ LFU.minFreq c1 = 1
    ∧ LFU.count (Str "key1") c1 = Some 1
    ∧ ∃ c2, LFU.Get (Str "key1") c1 = LFU.Panicked LFU.nil_dereference c2
      ∧ LFU.minFreq c2 = 1
      ∧ LFU.freqNodes c2 = [x3]
      ∧ LFU.freq (LFU.node x3) = 2
      ∧ LFU.elements (LFU.node x3) = [y3]
      ∧ LFU.Value y3
        = {| LFU.key := Str "key1"; LFU.value := Str "value1";
             LFU.frequency := 2 |}.
Proof.
  eexists _, _, _. split; [vm_compute; reflexivity|].
  split; [reflexivity|]. split; [vm_compute; reflexivity|].
  eexists. split; [vm_compute; reflexivity|].
  repeat split; reflexivity.
Qed.

(** C3.  In every run of calls on a new frequency cache, a [Put] of a new
    key on a full cache evicts the head of the first
    frequency node; its count is at most the count of every cached entry
    (so of two entries with different counts it is never the higher one),
    and every other entry with the same count was put or touched later: its
    element was allocated later and, when the two keys are equal to
    themselves, its key was used later in the run. *)
Theorem C3_eviction_order (n : Z) (ops : list LFU.op) (k v : any) :
  0 < n →
  LFU.items (LFU.run (LFU.empty n) ops) !! k = None →
  LFU.capacity (LFU.run (LFU.empty n) ops)
    ≤ LFU.Size (LFU.run (LFU.empty n) ops) →
  ∃ x ns y ys c2 e,
    LFU.freqNodes (LFU.run (LFU.empty n) ops) = x :: ns
    ∧ LFU.elements (LFU.node x) = y :: ys
    ∧ LFU.Put k v (LFU.run (LFU.empty n) ops) = LFU.Done () c2
    ∧ LFU.items c2
      = <[k := e]> (delete (LFU.key (LFU.Value y))
                      (LFU.items (LFU.run (LFU.empty n) ops)))
    ∧ go_eq (LFU.key (LFU.Value y)) k = false
    ∧ ∀ x' y',
        x' ∈ LFU.freqNodes (LFU.run (LFU.empty n) ops) →
        y' ∈ LFU.elements (LFU.node x') →
        LFU.frequency (LFU.Value y) ≤ LFU.frequency (LFU.Value y')
        ∧ (LFU.frequency (LFU.Value y') = LFU.frequency (LFU.Value y) →
           y' ≠ y →
           (LFU.eid y < LFU.eid y')%nat
           ∧ (LFU.key (LFU.Value y) ≠ NaN → LFU.key (LFU.Value y') ≠ NaN →
              (LFU.last_use (LFU.key (LFU.Value y)) ops
               < LFU.last_use (LFU.key (LFU.Value y')) ops)%nat)).
Proof.
  intros Hn Hk Hfull.
  destruct (LFUFacts.empty_inv n Hn) as [Hwf0 Hb0].
  destruct (LFUFacts.run_inv ops _ Hwf0 Hb0) as (Hwf & Hb & Hcap).
  destruct (LFUFacts.run_ordered ops _ Hwf0 Hb0 eq_refl) as [Hs Hr Ha].
  set (c := LFU.run (LFU.empty n) ops) in *.
  assert (0 < LFU.Size c) as Hpos by (destruct Hb; lia).
  assert (LFU.capacity c ≠ 0) as Hcap0 by (destruct Hb; lia).
  destruct (LFUFacts.wf_size_pos c Hwf (proj2 Hb) Hpos)
    as (x & ns & y & ys & Hns & Hel).
  destruct (LFUFacts.Put_new c k v Hwf Hcap0 Hk) as (c2 & Hins & HPut).
  destruct Hins as (e & m & ns2 & fr & _ & _ & _ & _ & Hc2).
  assert (x ∈ LFU.freqNodes c) as Hx by (rewrite Hns; by left).
  assert (y ∈ LFU.elements (LFU.node x)) as Hy by (rewrite Hel; by left).
  assert (∀ x' y', x' ∈ LFU.freqNodes c → y' ∈ LFU.elements (LFU.node x') →
            LFU.frequency (LFU.Value y') = LFU.freq (LFU.node x')) as Hfq.
  { intros x' y' Hx' Hy'.
    exact (LFU.wf_frequency c Hwf _ (LFUFacts.wf_entry c x' y' Hwf Hx' Hy')). }
  exists x, ns, y, ys, c2, e.
  split; [done|]. split; [done|]. split; [done|]. split; [|split].
  - rewrite Hc2. simpl. unfold LFU.made_room.
    rewrite (proj2 (Z.leb_le _ _) Hfull). unfold LFU.evicted.
    by rewrite Hns, Hel.
  - apply not_true_is_false. intros [Heq Hnan]%go_eq_true.
    pose proof (LFUFacts.wf_items_member c x y Hwf Hx Hy Hnan) as Hky.
    congruence.
  - intros x' y' Hx' Hy'.
    rewrite (Hfq x y Hx Hy), (Hfq x' y' Hx' Hy').
    pose proof Hx' as Hx''. rewrite Hns in Hx'', Hs.
    destruct (LFUFacts.sorted_front_least x ns x' Hs Hx'') as [->|[_ Hlt]].
    + split; [lia|]. intros _ Hne.
      assert (y' ∈ ys) as Hin.
      { rewrite Hel in Hy'. by apply elem_of_cons in Hy' as [->|Hy']. }
      split.
      * unfold LFU.aged in Ha. rewrite Forall_forall in Ha.
        specialize (Ha x Hx). unfold LFU.by_age in Ha. rewrite Hel in Ha.
        apply StronglySorted_cons in Ha as [Hall _].
        rewrite Forall_forall in Hall. by apply Hall.
      * unfold LFU.recency in Hr. rewrite Forall_forall in Hr.
        specialize (Hr x Hx). unfold LFU.by_recency in Hr.
        rewrite Hel in Hr.
        apply StronglySorted_cons in Hr as [Hall _].
        rewrite Forall_forall in Hall. by apply Hall.
    + split; lia.
Qed.

(** C3 at scenario C of the specification: capacity 2, [put(key1)],
    [put(key2)], [get(key1)], and then the [put] of the new key [key3]. *)
Lemma C3_eviction_order_witness :
  0 < 2
  ∧ LFU.items (LFU.run (LFU.empty 2)
                 [LFU.OpPut (Str "key1") (Str "value1");
                  LFU.OpPut (Str "key2") (Str "value2");
                  LFU.OpGet (Str "key1")]) !! Str "key3" = None
  ∧ LFU.capacity (LFU.run (LFU.empty 2)
                    [LFU.OpPut (Str "key1") (Str "value1");
                     LFU.OpPut (Str "key2") (Str "value2");
                     LFU.OpGet (Str "key1")])
    ≤ LFU.Size (LFU.run (LFU.empty 2)
                  [LFU.OpPut (Str "key1") (Str "value1");
                   LFU.OpPut (Str "key2") (Str "value2");
                   LFU.OpGet (Str "key1")])
  ∧ ∃ x ns y ys c2 e,
      LFU.freqNodes (LFU.run (LFU.empty 2)
                       [LFU.OpPut (Str "key1") (Str "value1");
                        LFU.OpPut (Str "key2") (Str "value2");
                        LFU.OpGet (Str "key1")]) = x :: ns
      ∧ LFU.elements (LFU.node x) = y :: ys
      ∧ LFU.Put (Str "key3") (Str "value3")
          (LFU.run (LFU.empty 2)
             [LFU.OpPut (Str "key1") (Str "value1");
              LFU.OpPut (Str "key2") (Str "value2");
              LFU.OpGet (Str "key1")]) = LFU.Done () c2
      ∧ LFU.items c2
        = <[Str "key3" := e]>
            (delete (LFU.key (LFU.Value y))
               (LFU.items (LFU.run (LFU.empty 2)
                             [LFU.OpPut (Str "key1") (Str "value1");
                              LFU.OpPut (Str "key2") (Str "value2");
                              LFU.OpGet (Str "key1")])))
      ∧ go_eq (LFU.key (LFU.Value y)) (Str "key3") = false
      ∧ ∀ x' y',
          x' ∈ LFU.freqNodes (LFU.run (LFU.empty 2)
                                [LFU.OpPut (Str "key1") (Str "value1");
                                 LFU.OpPut (Str "key2") (Str "value2");
                                 LFU.OpGet (Str "key1")]) →
          y' ∈ LFU.elements (LFU.node x') →
          LFU.frequency (LFU.Value y) ≤ LFU.frequency (LFU.Value y')
          ∧ (LFU.frequency (LFU.Value y') = LFU.frequency (LFU.Value y) →
             y' ≠ y →
             (LFU.eid y < LFU.eid y')%nat
             ∧ (LFU.key (LFU.Value y) ≠ NaN →
                LFU.key (LFU.Value y') ≠ NaN →
                (LFU.last_use (LFU.key (LFU.Value y))
                   [LFU.OpPut (Str "key1") (Str "value1");
                    LFU.OpPut (Str "key2") (Str "value2");
                    LFU.OpGet (Str "key1")]
                 < LFU.last_use (LFU.key (LFU.Value y'))
                     [LFU.OpPut (Str "key1") (Str "value1");
                      LFU.OpPut (Str "key2") (Str "value2");
                      LFU.OpGet (Str "key1")])%nat)).
Proof.
  assert (0 < 2) as H1 by lia.
  assert (LFU.items (LFU.run (LFU.empty 2)
                       [LFU.OpPut (Str "key1") (Str "value1");
                        LFU.OpPut (Str "key2") (Str "value2");
                        LFU.OpGet (Str "key1")]) !! Str "key3" = None) as H3
    by (vm_compute; reflexivity).
  assert (LFU.capacity (LFU.run (LFU.empty 2)
                          [LFU.OpPut (Str "key1") (Str "value1");
                           LFU.OpPut (Str "key2") (Str "value2");
                           LFU.OpGet (Str "key1")])
          ≤ LFU.Size (LFU.run (LFU.empty 2)
                        [LFU.OpPut (Str "key1") (Str "value1");
                         LFU.OpPut (Str "key2") (Str "value2");
                         LFU.OpGet (Str "key1")])) as H4
    by (vm_compute; intros H; discriminate H).
  split; [exact H1|]. split; [exact H3|]. split; [exact H4|].
  exact (C3_eviction_order 2 _ (Str "key3") (Str "value3") H1 H3 H4).
Defined.




(** C5.  [NewLRUCache(0)] panics, where the claim, the zero-capacity test of
    the repository and the [capacity == 0] branch of [Add] have it return a
    cache that stores nothing; on the struct with capacity 0, [Add] returns
    [true], stores nothing, and [Get] does not find the key. *)
Theorem C5_zero_capacity_is_refused :
  LRU.NewLRUCache 0 = Panics "capacity must be positive"
  ∧ ∀ k v,
      LRU.Add k v (LRU.empty 0) = (true, LRU.empty 0)
      ∧ LRU.Get k (LRU.empty 0) = ((Str "", false), LRU.empty 0)
      ∧ LRU.Len (LRU.queue (LRU.empty 0)) = 0.
Proof.
  split; [reflexivity|]. intros k v.
  unfold LRU.Add, LRU.Get. simpl. rewrite gomap_lookup_empty.
  repeat split.
Qed.

(** C6, as the specification states it, fails on the frequency cache: it
    declares no [Remove] at all (its methods are [Get], [Put], [Size] and
    [Clear]), where the recency cache declares [Remove] with a [bool]. *)
Lemma C6_lfu_declares_no_remove :
  method_lookup "Remove" LFU.methods = None
  ∧ method_lookup "Remove" LRU.methods = Some [TBool].
Proof. split; reflexivity. Qed.

(** C6 (amended).  The recency cache has [remove(key) → bool]: on an absent
    key it returns [false] and leaves the whole cache as it was; on a present
    key it returns [true], deletes the key from the map and unlinks its
    element, so the queue is one shorter; in both cases the key is absent
    afterwards, and a second [remove] returns [false] and changes nothing.
    The frequency cache has no [remove]. *)
Theorem C6_lru_remove (L : LRU.LRU) (k : any) :
  LRU.wf L →
  (LRU.items L !! k = None → LRU.Remove k L = (false, L))
  ∧ (∀ e, LRU.items L !! k = Some e →
       LRU.Remove k L
       = (true, {| LRU.capacity := LRU.capacity L;
                   LRU.items := delete k (LRU.items L);
                   LRU.queue := LRU.list_Remove e (LRU.queue L);
                   LRU.fresh := LRU.fresh L |})
       ∧ LRU.Len (LRU.list_Remove e (LRU.queue L))
         = LRU.Len (LRU.queue L) - 1
       ∧ e ∉ LRU.list_Remove e (LRU.queue L))
  ∧ LRU.items (LRU.Remove k L).2 !! k = None
  ∧ LRU.Remove k (LRU.Remove k L).2 = (false, (LRU.Remove k L).2)
  ∧ LRU.wf (LRU.Remove k L).2
  ∧ method_lookup "Remove" LFU.methods = None.
Proof.
  intros Hwf.
  assert (LRU.items (LRU.Remove k L).2 !! k = None) as Hgone.
  { unfold LRU.Remove. destruct (LRU.items L !! k) eqn:Hk; [|done].
    simpl. apply gomap_lookup_delete_eq. }
  split; [apply LRUMethods.queue_Remove_absent|]. split.
  - intros e Hk. split; [by apply LRUMethods.queue_Remove_present|]. split.
    + apply LRUFacts.Len_unlink; [done|]. by apply (LRUFacts.wf_item_member L k).
    + unfold LRU.list_Remove. intros [Hne _]%list_elem_of_filter. by apply Hne.
  - split; [done|]. split; [by apply LRUMethods.queue_Remove_absent|].
    split; [by apply LRUFacts.wf_Remove|reflexivity].
Qed.

(** C6 (amended) on the recency cache that holds ["key1"]. *)
Lemma C6_lru_remove_witness :
  LRU.wf (LRU.run (LRU.empty 2) [LRU.OpAdd (Str "key1") (Str "value1")])
  ∧ LRU.Remove (Str "key1")
      (LRU.run (LRU.empty 2) [LRU.OpAdd (Str "key1") (Str "value1")])
    = (true, {| LRU.capacity := 2; LRU.items := ∅; LRU.queue := [];
                LRU.fresh := 1 |})
  ∧ LRU.Remove (Str "key1")
      (LRU.Remove (Str "key1")
         (LRU.run (LRU.empty 2) [LRU.OpAdd (Str "key1") (Str "value1")])).2
    = (false,
       (LRU.Remove (Str "key1")
          (LRU.run (LRU.empty 2) [LRU.OpAdd (Str "key1") (Str "value1")])).2).
Proof.
  pose proof (LRUFacts.wf_run [LRU.OpAdd (Str "key1") (Str "value1")] _
                (LRUFacts.wf_empty 2)) as Hwf.
  split; [exact Hwf|]. split; [vm_compute; reflexivity|].
  exact (proj1 (proj2 (proj2 (proj2 (C6_lru_remove _ (Str "key1") Hwf))))).
Defined.

(** C7, as the specification states it, fails on the frequency cache: its
    [Put] declares no result, where [Add] of the recency cache declares a
    [bool]. *)
Lemma C7_lfu_put_declares_no_result :
  method_lookup "Put" LFU.methods = Some []
  ∧ method_lookup "Add" LRU.methods = Some [TBool].
Proof. split; reflexivity. Qed.

(** C7 (amended).  The recency cache's [put] returns a boolean: [true] when
    the key was absent, after it has removed the last element of a full
    queue and linked the new entry at the front (with capacity 0 it returns
    [true] and stores nothing), and [false] when the key was present, after
    it has moved the entry to the front.  The frequency cache's [Put]
    returns no value. *)
Theorem C7_lru_put_result (L : LRU.LRU) (k v : any) :
  LRU.wf L →
  (LRU.items L !! k = None → LRU.capacity L ≠ 0 →
   LRU.Add k v L
   = (true,
      {| LRU.capacity :=
           LRU.capacity (if LRU.Len (LRU.queue L) =? LRU.capacity L
                         then LRU.removeLastElement L else L);
         LRU.items :=
           <[k := {| LRU.eid :=
                       LRU.fresh (if LRU.Len (LRU.queue L) =? LRU.capacity L
                                  then LRU.removeLastElement L else L);
                     LRU.EValue := {| LRU.Key := k; LRU.Value := v |} |}]>
             (LRU.items (if LRU.Len (LRU.queue L) =? LRU.capacity L
                         then LRU.removeLastElement L else L));
         LRU.queue :=
           {| LRU.eid :=
                LRU.fresh (if LRU.Len (LRU.queue L) =? LRU.capacity L
                           then LRU.removeLastElement L else L);
              LRU.EValue := {| LRU.Key := k; LRU.Value := v |} |}
           :: LRU.queue (if LRU.Len (LRU.queue L) =? LRU.capacity L
                         then LRU.removeLastElement L else L);
         LRU.fresh :=
           S (LRU.fresh (if LRU.Len (LRU.queue L) =? LRU.capacity L
                         then LRU.removeLastElement L else L)) |}))
  ∧ (LRU.items L !! k = None → LRU.capacity L = 0 →
     LRU.Add k v L = (true, L))
  ∧ (∀ e, LRU.items L !! k = Some e →
       LRU.Add k v L
       = (false, {| LRU.capacity := LRU.capacity L;
                    LRU.items := LRU.items L;
                    LRU.queue := e :: LRU.list_Remove e (LRU.queue L);
                    LRU.fresh := LRU.fresh L |}))
  ∧ method_lookup "Put" LFU.methods = Some [].
Proof.
  intros Hwf. split; [|split; [|split]].
  - intros Hk Hcap. exact (LRUMethods.queue_Add_absent L k v Hk Hcap).
  - intros Hk Hcap. unfold LRU.Add. by rewrite Hk, Hcap.
  - intros e Hk. by apply LRUMethods.queue_Add_present.
  - reflexivity.
Qed.

(** C7 (amended) at the third [put] of scenario A of the specification,
    which evicts ["key1"]. *)
Lemma C7_lru_put_result_witness :
  LRU.wf (LRU.run (LRU.empty 2)
            [LRU.OpAdd (Str "key1") (Str "value1");
             LRU.OpAdd (Str "key2") (Str "value2")])
  ∧ LRU.Add (Str "key3") (Str "value3")
      (LRU.run (LRU.empty 2)
         [LRU.OpAdd (Str "key1") (Str "value1");
          LRU.OpAdd (Str "key2") (Str "value2")])
    = (true,
       {| LRU.capacity := 2;
          LRU.items :=
            <[Str "key3" := {| LRU.eid := 2;
                               LRU.EValue := {| LRU.Key := Str "key3";
                                                LRU.Value := Str "value3" |} |}]>
              (<[Str "key2" := {| LRU.eid := 1;
                                  LRU.EValue := {| LRU.Key := Str "key2";
                                                   LRU.Value := Str "value2" |} |}]>
                 ∅);
          LRU.queue :=
            [{| LRU.eid := 2;
                LRU.EValue := {| LRU.Key := Str "key3";
                                 LRU.Value := Str "value3" |} |};
             {| LRU.eid := 1;
                LRU.EValue := {| LRU.Key := Str "key2";
                                 LRU.Value := Str "value2" |} |}];
          LRU.fresh := 3 |}).
Proof.
  pose proof (LRUFacts.wf_run
                [LRU.OpAdd (Str "key1") (Str "value1");
                 LRU.OpAdd (Str "key2") (Str "value2")] _
                (LRUFacts.wf_empty 2)) as Hwf.
  split; [exact Hwf|].
  rewrite (proj1 (C7_lru_put_result _ (Str "key3") (Str "value3") Hwf));
    [vm_compute; reflexivity|vm_compute; reflexivity
    |vm_compute; intros H; discriminate H].
Defined.

(** C8, as the specification states it, fails: after [put(k3)] of scenario D
    [minFreq] is 1, not 2.  [evict] does not write [minFreq], and [Put] sets
    it to 1 after it has linked the new entry, whose count is 1. *)
Lemma C8_minFreq_is_1_after_put :
  LFU.minFreq
    (LFU.run (LFU.empty 2)
       [LFU.OpPut (Str "k1") (Str "v1"); LFU.OpPut (Str "k2") (Str "v2");
        LFU.OpGet (Str "k1"); LFU.OpPut (Str "k3") (Str "v3")])
  = 1.
Proof. vm_compute. reflexivity. Qed.

(** C8 (amended).  Frequency cache, capacity 2: after [put(k1)], [put(k2)],
    [get(k1)] the counts are k1:2 and k2:1 and [minFreq] is 1; [put(k3)] of a
    new key then evicts k2, the only entry of count 1, and leaves k1 with
    count 2, k3 with count 1 and [minFreq] 1, the count of the entry it has
    just inserted. *)
Theorem C8_scenario_D :
  LFU.count (Str "k1")
    (LFU.run (LFU.empty 2)
       [LFU.OpPut (Str "k1") (Str "v1"); LFU.OpPut (Str "k2") (Str "v2");
        LFU.OpGet (Str "k1")]) = Some 2
  ∧ LFU.count (Str "k2")
      (LFU.run (LFU.empty 2)
         [LFU.OpPut (Str "k1") (Str "v1"); LFU.OpPut (Str "k2") (Str "v2");
          LFU.OpGet (Str "k1")]) = Some 1
  ∧ LFU.minFreq
      (LFU.run (LFU.empty 2)
         [LFU.OpPut (Str "k1") (Str "v1"); LFU.OpPut (Str "k2") (Str "v2");
          LFU.OpGet (Str "k1")]) = 1
  ∧ LFU.victim
      (LFU.run (LFU.empty 2)
         [LFU.OpPut (Str "k1") (Str "v1"); LFU.OpPut (Str "k2") (Str "v2");
          LFU.OpGet (Str "k1")])
    = Some {| LFU.key := Str "k2"; LFU.value := Str "v2";
              LFU.frequency := 1 |}
  ∧ ∃ c4,
      LFU.Put (Str "k3") (Str "v3")
        (LFU.run (LFU.empty 2)
           [LFU.OpPut (Str "k1") (Str "v1"); LFU.OpPut (Str "k2") (Str "v2");
            LFU.OpGet (Str "k1")]) = LFU.Done () c4
      ∧ LFU.items c4 !! Str "k2" = None
      ∧ LFU.count (Str "k1") c4 = Some 2
      ∧ LFU.count (Str "k3") c4 = Some 1
      ∧ LFU.Size c4 = 2
      ∧ LFU.minFreq c4 = 1.
Proof.
  split; [vm_compute; reflexivity|]. split; [vm_compute; reflexivity|].
  split; [vm_compute; reflexivity|]. split; [vm_compute; reflexivity|].
  eexists. split; [vm_compute; reflexivity|].
  repeat split; vm_compute; reflexivity.
Qed.

(** C9.  On the recency cache, [put] of a key that is present returns
    [false], moves the element of the key to the front of the queue, and
    changes nothing else: the map, and with it the stored item, is the same,
    the queue is the same elements, hence as long, and [get] still returns
    the value stored first. *)
Theorem C9_lru_put_present (L : LRU.LRU) (k v : any) (e : LRU.Element) :
  LRU.wf L → LRU.items L !! k = Some e →
  LRU.Add k v L
  = (false, {| LRU.capacity := LRU.capacity L;
               LRU.items := LRU.items L;
               LRU.queue := e :: LRU.list_Remove e (LRU.queue L);
               LRU.fresh := LRU.fresh L |})
  ∧ e ∈ LRU.queue L
  ∧ LRU.Key (LRU.EValue e) = k
  ∧ e :: LRU.list_Remove e (LRU.queue L) ≡ₚ LRU.queue L
  ∧ LRU.Len (e :: LRU.list_Remove e (LRU.queue L)) = LRU.Len (LRU.queue L)
  ∧ (LRU.Get k (LRU.Add k v L).2).1 = (LRU.Value (LRU.EValue e), true).
Proof.
  intros Hwf Hk.
  pose proof (proj1 (LRU.wf_items L Hwf k e) Hk) as (He & Hkey & _).
  assert (e :: LRU.list_Remove e (LRU.queue L) ≡ₚ LRU.queue L) as Hperm.
  { rewrite <- (LRUFacts.MoveToFront_member e (LRU.queue L));
      [apply LRUFacts.MoveToFront_perm|apply (LRU.wf_ids L Hwf)|done]. }
  split; [by apply LRUMethods.queue_Add_present|]. split; [done|].
  split; [done|]. split; [done|]. split.
  - unfold LRU.Len. by rewrite Hperm.
  - rewrite (LRUMethods.queue_Add_present L k v e Hwf Hk). simpl.
    unfold LRU.Get. simpl. by rewrite Hk.
Qed.

(** C9 at scenario B of the specification: [put("key1","value1")], then
    [put("key1","value2")]. *)
Lemma C9_lru_put_present_witness :
  LRU.wf (LRU.run (LRU.empty 2) [LRU.OpAdd (Str "key1") (Str "value1")])
  ∧ LRU.items (LRU.run (LRU.empty 2) [LRU.OpAdd (Str "key1") (Str "value1")])
      !! Str "key1"
    = Some {| LRU.eid := 0;
              LRU.EValue := {| LRU.Key := Str "key1";
                               LRU.Value := Str "value1" |} |}
  ∧ (LRU.Add (Str "key1") (Str "value2")
       (LRU.run (LRU.empty 2) [LRU.OpAdd (Str "key1") (Str "value1")])).1
    = false
  ∧ (LRU.Get (Str "key1")
       (LRU.Add (Str "key1") (Str "value2")
          (LRU.run (LRU.empty 2)
             [LRU.OpAdd (Str "key1") (Str "value1")])).2).1
    = (Str "value1", true).
Proof.
  pose proof (LRUFacts.wf_run [LRU.OpAdd (Str "key1") (Str "value1")] _
                (LRUFacts.wf_empty 2)) as Hwf.
  assert (LRU.items
            (LRU.run (LRU.empty 2) [LRU.OpAdd (Str "key1") (Str "value1")])
            !! Str "key1"
          = Some {| LRU.eid := 0;
                    LRU.EValue := {| LRU.Key := Str "key1";
                                     LRU.Value := Str "value1" |} |}) as Hk
    by (vm_compute; reflexivity).
  destruct (C9_lru_put_present _ (Str "key1") (Str "value2") _ Hwf Hk)
    as (HAdd & _ & _ & _ & _ & HGet).
  split; [exact Hwf|]. split; [exact Hk|]. split.
  - by rewrite HAdd.
  - exact HGet.
Defined.

(** C10.  On a miss the recency cache returns the empty string and [false],
    whatever values it stores, and the frequency cache returns [nil] and
    [false]; neither changes the cache. *)
Theorem C10_miss_values :
  (∀ (L : LRU.LRU) (k : any),
     LRU.items L !! k = None → LRU.Get k L = ((Str "", false), L))
  ∧ (∀ (c : LFU.LFUCache) (k : any),
       LFU.items c !! k = None → LFU.Get k c = LFU.Done (Nil, false) c)
  ∧ Str "" ≠ Nil.
Proof.
  split; [apply LRUMethods.queue_Get_miss|]. split; [apply LFUFacts.Get_miss|done].
Qed.

(** C10 on caches that hold an integer under an integer key. *)
Lemma C10_miss_values_witness :
  (LRU.items (LRU.run (LRU.empty 2) [LRU.OpAdd (Int 1) (Int 10)]) !! Int 2
   = None
   ∧ LRU.Get (Int 2) (LRU.run (LRU.empty 2) [LRU.OpAdd (Int 1) (Int 10)])
     = ((Str "", false),
        LRU.run (LRU.empty 2) [LRU.OpAdd (Int 1) (Int 10)]))
  ∧ (LFU.items (LFU.run (LFU.empty 2) [LFU.OpPut (Int 1) (Int 10)]) !! Int 2
     = None
     ∧ LFU.Get (Int 2) (LFU.run (LFU.empty 2) [LFU.OpPut (Int 1) (Int 10)])
       = LFU.Done (Nil, false)
           (LFU.run (LFU.empty 2) [LFU.OpPut (Int 1) (Int 10)])).
Proof.
  assert (LRU.items (LRU.run (LRU.empty 2) [LRU.OpAdd (Int 1) (Int 10)])
            !! Int 2 = None) as H1 by (vm_compute; reflexivity).
  assert (LFU.items (LFU.run (LFU.empty 2) [LFU.OpPut (Int 1) (Int 10)])
            !! Int 2 = None) as H2 by (vm_compute; reflexivity).
  split.
  - split; [exact H1|]. exact (proj1 C10_miss_values _ _ H1).
  - split; [exact H2|]. exact (proj1 (proj2 C10_miss_values) _ _ H2).
Defined.
